(** * The functions of [src/objects-tasks.js]

    A shallow embedding of the class [CssSelector] and of the facade
    [cssSelectorBuilder], followed by the properties of the builder's
    ordering rules, cardinality rules and serialisation; then of the other
    functions of the file: [sellTickets], [group], [mergeObjects], the
    object utilities [shallowCopy], [removeProperties], [makeImmutable],
    [compareObjects] and [isEmptyObject], [sortCitiesArray] and [makeWord].

    JavaScript objects are mutable and are passed by reference: a combined
    selector keeps references to its two sides.  The embedding therefore
    keeps every [CssSelector] object in a store, addresses it by its
    location, and runs the methods in a state-and-exception monad over that
    store.  The functions that change or create plain objects run on a
    store of plain objects in the same way; the others are functions of
    their arguments. *)

From Stdlib Require Import ZArith Lia.
From stdpp Require Import base option list strings gmap sorting pretty.

Local Open Scope string_scope.
Local Open Scope list_scope.

(** ** JavaScript values *)

(** The values of the fragments and of the type names: strings, and
    [null], [undefined] and the booleans, which the methods compare with
    [null] and the template literals convert to strings.  Symbols, which
    have no string conversion, come in as combinator tokens in [AnyToken]
    below; numbers and objects are left out. *)
Inductive value : Type :=
  | JNull
  | JUndefined
  | JBool (b : bool)
  | JString (s : string).

#[global] Instance value_eq_dec : EqDecision value.
Proof. solve_decision. Defined.

(** [a === b] *)
Definition strict_eq (a b : value) : bool := bool_decide (a = b).

(** The conversion done by a template literal, [`${v}`]. *)
Definition ToString (v : value) : string :=
  match v with
  | JNull => "null"
  | JUndefined => "undefined"
  | JBool true => "true"
  | JBool false => "false"
  | JString s => s
  end.

(** A parameter with the default [= null]: an argument that is missing or
    [undefined] takes the default. *)
Definition default_null (v : value) : value :=
  match v with
  | JUndefined => JNull
  | _ => v
  end.

(** ** Objects and the store *)

Abbreviation loc := nat (only parsing).

(** The object literal [{ selector1, combinator, selector2 }]. *)
Record combination : Type := mkCombination {
  selector1 : loc;
  combinator : value;
  selector2 : loc
}.

(** The fields of a [CssSelector] instance.  [parts] is the JavaScript
    object used as a map from a part type to the array of its values;
    [combined] is [null] ([None]) or the object literal above. *)
Record CssSelector : Type := mkCssSelector {
  parts : gmap string (list value);
  hasElement : bool;
  hasId : bool;
  hasPseudoElement : bool;
  lastAdded : value;
  combined : option combination
}.

(** Objects live in a store, in the order of their creation; a reference is
    an index in it. *)
Abbreviation heap := (list CssSelector) (only parsing).

(** ** Exceptions and the monad of methods *)

(** [new Error(message)].  [Dangling] is the embedding's own: a reference
    that is bound to no object, which no JavaScript execution produces. *)
Inductive exn : Type :=
  | Error (message : string)
  | Dangling (l : loc).

#[global] Instance exn_eq_dec : EqDecision exn.
Proof. solve_decision. Defined.

Inductive outcome (A : Type) : Type :=
  | Ok (a : A)
  | Throw (e : exn).
Arguments Ok {A} a.
Arguments Throw {A} e.

(** A computation returns or throws, and in both cases leaves a store. *)
Definition M (A : Type) : Type := heap → outcome A * heap.

#[global] Instance M_ret : MRet M := λ A a h, (Ok a, h).

#[global] Instance M_bind : MBind M := λ A B f m h,
  match m h with
  | (Ok a, h') => f a h'
  | (Throw e, h') => (Throw e, h')
  end.

Definition throw {A : Type} (e : exn) : M A := λ h, (Throw e, h).

Definition load (this : loc) : M CssSelector := λ h,
  match h !! this with
  | Some o => (Ok o, h)
  | None => (Throw (Dangling this), h)
  end.

Definition store (this : loc) (o : CssSelector) : M unit := λ h,
  (Ok (), <[this := o]> h).

Definition alloc (o : CssSelector) : M loc := λ h,
  (Ok (length h), h ++ [o]).

(** Assignments to one field of [this]. *)
Definition set_parts (this : loc) (p : gmap string (list value)) : M unit :=
  o ← load this;
  store this (mkCssSelector p (hasElement o) (hasId o) (hasPseudoElement o)
                            (lastAdded o) (combined o)).

Definition set_hasElement (this : loc) (b : bool) : M unit :=
  o ← load this;
  store this (mkCssSelector (parts o) b (hasId o) (hasPseudoElement o)
                            (lastAdded o) (combined o)).

Definition set_hasId (this : loc) (b : bool) : M unit :=
  o ← load this;
  store this (mkCssSelector (parts o) (hasElement o) b (hasPseudoElement o)
                            (lastAdded o) (combined o)).

Definition set_hasPseudoElement (this : loc) (b : bool) : M unit :=
  o ← load this;
  store this (mkCssSelector (parts o) (hasElement o) (hasId o) b
                            (lastAdded o) (combined o)).

Definition set_lastAdded (this : loc) (v : value) : M unit :=
  o ← load this;
  store this (mkCssSelector (parts o) (hasElement o) (hasId o)
                            (hasPseudoElement o) v (combined o)).

Definition set_combined (this : loc) (c : option combination) : M unit :=
  o ← load this;
  store this (mkCssSelector (parts o) (hasElement o) (hasId o)
                            (hasPseudoElement o) (lastAdded o) c).

(** ** Arrays of part types *)

(** [xs.indexOf(x)]: the first index holding a value strictly equal to
    [x], or [-1]. *)
Fixpoint indexOf_from (i : Z) (xs : list value) (x : value) : Z :=
  match xs with
  | [] => (-1)%Z
  | y :: ys => if strict_eq y x then i else indexOf_from (i + 1)%Z ys x
  end.

Definition indexOf (xs : list value) (x : value) : Z := indexOf_from 0%Z xs x.

(** The array [order] of [validateOrder]. *)
Definition order : list value :=
  [JString "element"; JString "id"; JString "class"; JString "attr";
   JString "pseudoClass"; JString "pseudoElement"].

(** The array [outputOrder] of [stringify]. *)
Definition outputOrder : list string :=
  ["element"; "id"; "class"; "attr"; "pseudoClass"; "pseudoElement"].

(** The two messages thrown by the class. *)
Definition duplicate_message : string :=
  "Element, id and pseudo-element should not occur more than one time inside the selector".

Definition order_message : string :=
  "Selector parts should be arranged in the following order: element, id, class, attribute, pseudo-class, pseudo-element".

(** The names the specification gives to the two errors. *)
Definition DuplicateFragmentError : exn := Error duplicate_message.
Definition OrderViolationError : exn := Error order_message.

(** ** The class [CssSelector] *)

Module CssSelector.

Definition empty : CssSelector :=
  mkCssSelector ∅ false false false JNull None.

Definition addPart (this : loc) (type : string) (v : value) : M unit :=
  o ← load this;
  (if parts o !! type is None
   then set_parts this (<[type := []]> (parts o))
   else mret ());;
  o ← load this;
  set_parts this (<[type := default [] (parts o !! type) ++ [v]]> (parts o)).

Definition validateOrder (this : loc) (nextType : string) : M unit :=
  o ← load this;
  let currentIndex := indexOf order (lastAdded o) in
  let nextIndex := indexOf order (JString nextType) in
  if (currentIndex >? nextIndex)%Z
  then throw (Error order_message)
  else mret ().

(** [new CssSelector(value, type)], both parameters defaulting to
    [null]. *)
Definition constructor (v type : value) : M loc :=
  let v := default_null v in
  let type := default_null type in
  this ← alloc empty;
  (if negb (strict_eq v JNull) && negb (strict_eq type JNull)
   then
     addPart this (ToString type) v;;
     (if strict_eq type (JString "element") then set_hasElement this true
      else if strict_eq type (JString "id") then set_hasId this true
      else if strict_eq type (JString "pseudoElement")
           then set_hasPseudoElement this true
      else mret ());;
     set_lastAdded this type
   else mret ());;
  mret this.

Definition element (this : loc) (v : value) : M loc :=
  validateOrder this "element";;
  o ← load this;
  (if hasElement o then throw (Error duplicate_message) else mret ());;
  addPart this "element" v;;
  set_hasElement this true;;
  set_lastAdded this (JString "element");;
  mret this.

Definition id (this : loc) (v : value) : M loc :=
  validateOrder this "id";;
  o ← load this;
  (if hasId o then throw (Error duplicate_message) else mret ());;
  addPart this "id" v;;
  set_hasId this true;;
  set_lastAdded this (JString "id");;
  mret this.

Definition class (this : loc) (v : value) : M loc :=
  validateOrder this "class";;
  addPart this "class" v;;
  set_lastAdded this (JString "class");;
  mret this.

Definition attr (this : loc) (v : value) : M loc :=
  validateOrder this "attr";;
  addPart this "attr" v;;
  set_lastAdded this (JString "attr");;
  mret this.

Definition pseudoClass (this : loc) (v : value) : M loc :=
  validateOrder this "pseudoClass";;
  addPart this "pseudoClass" v;;
  set_lastAdded this (JString "pseudoClass");;
  mret this.

Definition pseudoElement (this : loc) (v : value) : M loc :=
  validateOrder this "pseudoElement";;
  o ← load this;
  (if hasPseudoElement o then throw (Error duplicate_message) else mret ());;
  addPart this "pseudoElement" v;;
  set_hasPseudoElement this true;;
  set_lastAdded this (JString "pseudoElement");;
  mret this.

Definition combine (this : loc) (c : value) (selector : loc) : M loc :=
  combined ← constructor JUndefined JUndefined;
  set_combined combined (Some (mkCombination this c selector));;
  mret combined.

(** The [switch] of [stringify]: the prefix and the suffix of a type. *)
Definition affixes (type : string) : string * string :=
  if String.eqb type "element" then ("", "")
  else if String.eqb type "id" then ("#", "")
  else if String.eqb type "class" then (".", "")
  else if String.eqb type "attr" then ("[", "]")
  else if String.eqb type "pseudoClass" then (":", "")
  else if String.eqb type "pseudoElement" then ("::", "")
  else ("", "").

(** The two nested [forEach] loops of [stringify], each a left fold that
    appends to [result]. *)
Definition stringify_type (p : gmap string (list value))
    (result : string) (type : string) : string :=
  match p !! type with
  | Some vs =>
      let '(prefix, suffix) := affixes type in
      foldl (λ result v, result +:+ prefix +:+ ToString v +:+ suffix)
            result vs
  | None => result
  end.

Definition stringify_parts (p : gmap string (list value)) : string :=
  foldl (stringify_type p) "" outputOrder.

(** [stringify] calls itself through the references of a combined
    selector; [fuel] bounds the depth of these calls. *)
Fixpoint stringify_fuel (fuel : nat) (h : heap) (this : loc)
    : option string :=
  match fuel with
  | O => None
  | S fuel =>
      o ← h !! this;
      match combined o with
      | Some c =>
          selector1Str ← stringify_fuel fuel h (selector1 c);
          selector2Str ← stringify_fuel fuel h (selector2 c);
          Some (selector1Str +:+ " " +:+ ToString (combinator c) +:+ " "
                +:+ selector2Str)
      | None => Some (stringify_parts (parts o))
      end
  end.

(** A chain of references through distinct objects is no longer than the
    store, so the number of objects is fuel enough. *)
Definition stringify (h : heap) (this : loc) : option string :=
  stringify_fuel (length h) h this.

End CssSelector.

(** ** The facade [cssSelectorBuilder] *)

Module cssSelectorBuilder.

Definition element (v : value) : M loc :=
  CssSelector.constructor v (JString "element").

Definition id (v : value) : M loc :=
  CssSelector.constructor v (JString "id").

Definition class (v : value) : M loc :=
  CssSelector.constructor v (JString "class").

Definition attr (v : value) : M loc :=
  CssSelector.constructor v (JString "attr").

Definition pseudoClass (v : value) : M loc :=
  CssSelector.constructor v (JString "pseudoClass").

Definition pseudoElement (v : value) : M loc :=
  CssSelector.constructor v (JString "pseudoElement").

Definition combine (selector1 : loc) (c : value) (selector2 : loc)
    : M loc :=
  combined ← CssSelector.constructor JUndefined JUndefined;
  set_combined combined (Some (mkCombination selector1 c selector2));;
  mret combined.

End cssSelectorBuilder.

(** ** The six fragment-adding calls *)

(** The six methods of the class that add a part, which are also the six
    entry points of the facade that create a selector. *)
Inductive method : Type :=
  | Element | Id | Class | Attr | PseudoClass | PseudoElement.

#[global] Instance method_eq_dec : EqDecision method.
Proof. solve_decision. Defined.

(** The type string a method passes to [validateOrder] and [addPart]. *)
Definition type_of (m : method) : string :=
  match m with
  | Element => "element"
  | Id => "id"
  | Class => "class"
  | Attr => "attr"
  | PseudoClass => "pseudoClass"
  | PseudoElement => "pseudoElement"
  end.

(** [node.m(v)] *)
Definition call (m : method) : loc → value → M loc :=
  match m with
  | Element => CssSelector.element
  | Id => CssSelector.id
  | Class => CssSelector.class
  | Attr => CssSelector.attr
  | PseudoClass => CssSelector.pseudoClass
  | PseudoElement => CssSelector.pseudoElement
  end.

(** [cssSelectorBuilder.m(v)] *)
Definition create (m : method) : value → M loc :=
  match m with
  | Element => cssSelectorBuilder.element
  | Id => cssSelectorBuilder.id
  | Class => cssSelectorBuilder.class
  | Attr => cssSelectorBuilder.attr
  | PseudoClass => cssSelectorBuilder.pseudoClass
  | PseudoElement => cssSelectorBuilder.pseudoElement
  end.

(** Method chaining, [node.m1(v1).m2(v2)...]. *)
Fixpoint chain (this : loc) (ops : list (method * value)) : M loc :=
  match ops with
  | [] => mret this
  | (m, v) :: ops => this ← call m this v; chain this ops
  end.

(** [cssSelectorBuilder.m(v).m1(v1).m2(v2)...] *)
Definition build (m : method) (v : value) (ops : list (method * value))
    : M loc :=
  this ← create m v; chain this ops.

(** The canonical rank of a part type: its index in [order], and [-1] for
    [null], the value of [lastAdded] before the first addition. *)
Definition rank (type : value) : Z := indexOf order type.

Definition rank_of (m : method) : Z := rank (JString (type_of m)).

(** The kinds that may occur once, and the flag that records each. *)
Definition once (m : method) : bool :=
  match m with
  | Element | Id | PseudoElement => true
  | _ => false
  end.

Definition has (m : method) (o : CssSelector) : bool :=
  match m with
  | Element => hasElement o
  | Id => hasId o
  | PseudoElement => hasPseudoElement o
  | _ => false
  end.

(** ** What a call does to the object it is called on *)

(** The definitions of this part are not read off the source: they state,
    on one object, the effect of running a method, and the lemmas
    [call_run], [create_run] and [combine_run] below prove them against the
    embedding of the methods. *)

(** [parts[type].push(v)], after [parts[type]] was created if missing. *)
Definition push (type : string) (v : value) (p : gmap string (list value))
    : gmap string (list value) :=
  <[type := default [] (p !! type) ++ [v]]> p.

(** The object after [m(v)] has returned. *)
Definition added (m : method) (v : value) (o : CssSelector) : CssSelector :=
  mkCssSelector (push (type_of m) v (parts o))
    (if m is Element then true else hasElement o)
    (if m is Id then true else hasId o)
    (if m is PseudoElement then true else hasPseudoElement o)
    (JString (type_of m))
    (combined o).

(** The exception [m] throws on [o], if any: the order check comes first,
    the check of the flag second. *)
Definition refusal (m : method) (o : CssSelector) : option exn :=
  if (rank (lastAdded o) >? rank_of m)%Z then Some OrderViolationError
  else if has m o then Some DuplicateFragmentError
  else None.

(** The object the facade creates for [m(v)]: the constructor skips the
    part when the value is [null], or is [undefined] and so replaced by the
    default. *)
Definition nullish (v : value) : bool :=
  match v with
  | JNull | JUndefined => true
  | _ => false
  end.

Definition created (m : method) (v : value) : CssSelector :=
  if nullish v then CssSelector.empty else added m v CssSelector.empty.

(** The object [combine] creates. *)
Definition joint (l1 : loc) (c : value) (l2 : loc) : CssSelector :=
  mkCssSelector ∅ false false false JNull (Some (mkCombination l1 c l2)).

(** ** The serialisation as the specification words it *)

Definition joined (ss : list string) : string := foldr String.append "" ss.

(** The fixed decoration of each kind. *)
Definition decorate (m : method) (v : value) : string :=
  match m with
  | Element => ToString v
  | Id => "#" +:+ ToString v
  | Class => "." +:+ ToString v
  | Attr => "[" +:+ ToString v +:+ "]"
  | PseudoClass => ":" +:+ ToString v
  | PseudoElement => "::" +:+ ToString v
  end.

Definition canonical : list method :=
  [Element; Id; Class; Attr; PseudoClass; PseudoElement].

(** The values of kind [m] among the added fragments, in insertion
    order. *)
Definition values_of (m : method) (frags : list (method * value))
    : list value :=
  snd <$> filter (λ f, fst f = m) frags.

(** The decorated values of one kind, concatenated. *)
Definition segment (m : method) (vs : list value) : string :=
  joined (decorate m <$> vs).

(** For each kind in canonical order, each value of that kind in insertion
    order, decorated; no separator. *)
Definition spec_stringify (frags : list (method * value)) : string :=
  joined ((λ m, segment m (values_of m frags)) <$> canonical).

(** The same text computed from the stored values of an object. *)
Definition spec_stringify_parts (p : gmap string (list value)) : string :=
  joined ((λ m, segment m (default [] (p !! type_of m))) <$> canonical).

(** The fragment the facade stores for [m(v)], if any. *)
Definition seed (m : method) (v : value) : list (method * value) :=
  if nullish v then [] else [(m, v)].

(** A valid sequence of fragments, as the specification words it: the ranks
    never decrease, and only [class], [attr] and [pseudoClass] repeat.
    [last] is the kind of the fragment before the sequence, if any. *)
Fixpoint valid_after (last : option method) (frags : list (method * value))
    : bool :=
  match frags with
  | [] => true
  | (m, _) :: frags =>
      match last with
      | None => true
      | Some m0 =>
          (rank_of m0 <? rank_of m)%Z || (bool_decide (m0 = m) && negb (once m))
      end
      && valid_after (Some m) frags
  end.

Definition valid (frags : list (method * value)) : bool :=
  valid_after None frags.

(** The value of [lastAdded] after a fragment of kind [last]. *)
Definition last_value (last : option method) : value :=
  match last with
  | None => JNull
  | Some m => JString (type_of m)
  end.

(** The four combinator tokens of the specification. *)
Definition accepted (t : value) : Prop :=
  t = JString " " ∨ t = JString "+" ∨ t = JString "~" ∨ t = JString ">".

(** ** Invariants of the objects the builder produces *)

(** Every stored array is non-empty and belongs to one of the six types,
    none ranked above the last added one; the three flags tell whether the
    part they guard is stored. *)
Record node_inv (o : CssSelector) : Prop := mkNodeInv {
  inv_parts : ∀ type vs, parts o !! type = Some vs →
    vs ≠ [] ∧ ∃ m, type = type_of m ∧ (rank_of m ≤ rank (lastAdded o))%Z;
  inv_flags : ∀ m, once m = true →
    (has m o = true ↔ is_Some (parts o !! type_of m))
}.

(** Every object satisfies [node_inv], and a combined selector refers to
    objects created before it. *)
Definition heap_inv (h : heap) : Prop :=
  ∀ l o, h !! l = Some o →
    node_inv o ∧
    ∀ c, combined o = Some c → selector1 c < l ∧ selector2 c < l.

(** A simple selector: one that is not combined. *)
Definition simple (o : CssSelector) : Prop := combined o = None.

(** The stores the facade and the methods can produce, starting from no
    object at all.  A call may throw: the store it leaves is reachable
    too. *)
Inductive reachable : heap → Prop :=
  | reach_nil : reachable []
  | reach_create h m v :
      reachable h → reachable (snd (create m v h))
  | reach_call h m this v :
      reachable h → reachable (snd (call m this v h))
  | reach_combine h l1 c l2 :
      reachable h → l1 < length h → l2 < length h →
      reachable (snd (cssSelectorBuilder.combine l1 c l2 h))
  | reach_method_combine h this c selector :
      reachable h → this < length h → selector < length h →
      reachable (snd (CssSelector.combine this c selector h)).

(** [p] run from the empty store, then [stringify] on the selector it
    returns. *)
Definition stringify_of (p : M loc) : option string :=
  match p [] with
  | (Ok l, h) => CssSelector.stringify h l
  | (Throw _, _) => None
  end.

(** ** Concrete selectors used in the examples *)

(** [element('div').id('main')], built in the empty store. *)
Definition div_main : heap :=
  snd (build Element (JString "div") [(Id, JString "main")] []).

(** [id('main')], built in the empty store. *)
Definition main_only : heap :=
  snd (build Id (JString "main") [] []).

(** [pseudoElement('after')], built in the empty store. *)
Definition after : heap :=
  snd (build PseudoElement (JString "after") [] []).

(** [combine(element('a'), ' ', element('b'))], built in the empty store:
    the sides are the objects 0 and 1, the combined selector is object 2. *)
Definition a_b : heap :=
  snd ((a ← build Element (JString "a") [];
        b ← build Element (JString "b") [];
        cssSelectorBuilder.combine a (JString " ") b) []).

(** [element(null)] and [element('b')], built in the empty store. *)
Definition null_b : heap :=
  snd ((a ← build Element JNull [];
        build Element (JString "b") []) []).

(** [element('div').id('main')] and [element('table').id('data')], built
    one after the other: the objects 0 and 1. *)
Definition div_and_table : heap :=
  snd (build Element (JString "table") [(Id, JString "data")] div_main).

(** The store after [combine(combine(element('a'), ' ', element('b')), '+',
    element('c'))]: the left side is object 2, the right side object 3, the
    outer combined selector object 4. *)
Definition ab_plus_c : heap :=
  snd ((c ← build Element (JString "c") [];
        cssSelectorBuilder.combine 2 (JString "+") c) a_b).

(** The store after [combine(element(null), '>', element('b'))]: the
    combined selector is object 2. *)
Definition null_gt_b : heap :=
  snd (cssSelectorBuilder.combine 0 (JString ">") 1 null_b).

(** [combine(element('div').id('main'), '+', element('table').id('data'))] *)
Definition div_plus_table : M loc :=
  a ← build Element (JString "div") [(Id, JString "main")];
  b ← build Element (JString "table") [(Id, JString "data")];
  cssSelectorBuilder.combine a (JString "+") b.

(** The nested example of the source's documentation. *)
Definition documented_example : M loc :=
  a ← build Element (JString "div")
        [(Id, JString "main"); (Class, JString "container");
         (Class, JString "draggable")];
  b ← build Element (JString "table") [(Id, JString "data")];
  c ← build Element (JString "tr") [(PseudoClass, JString "nth-of-type(even)")];
  d ← build Element (JString "td") [(PseudoClass, JString "nth-of-type(even)")];
  cd ← cssSelectorBuilder.combine c (JString " ") d;
  bcd ← cssSelectorBuilder.combine b (JString "~") cd;
  cssSelectorBuilder.combine a (JString "+") bcd.

(** [id('main').class('container').class('editable')] *)
Definition main_container_editable : M loc :=
  build Id (JString "main")
    [(Class, JString "container"); (Class, JString "editable")].

(** ** Further invariants of the builder *)

(** An array of a kind that may occur once holds one value; and
    [lastAdded] is [null] on an object without parts, and otherwise names a
    type whose array is stored. *)
Record part_inv (o : CssSelector) : Prop := mkPartInv {
  inv_single : ∀ m vs, once m = true →
    parts o !! type_of m = Some vs → ∃ v, vs = [v];
  inv_last :
    (lastAdded o = JNull ∧ parts o = ∅)
    ∨ ∃ m, lastAdded o = JString (type_of m)
           ∧ is_Some (parts o !! type_of m)
}.

(** The text of one fragment. *)
Definition decorated (f : method * value) : string := decorate f.1 f.2.

(** ** Symbols as combinator tokens *)

(** [combine] takes whatever it is given as [combinator].  The values of
    type [value] have a string conversion; a symbol is a primitive value
    that has none: a template literal throws a [TypeError] on it.  The
    module repeats, for tokens that may be symbols, what [combine] and
    [stringify] use of the class; the values of the fragments stay of type
    [value].  Numbers and objects are left out as tokens: the conversion of
    an object runs the code of the object. *)
Module AnyToken.

Inductive token : Type :=
  | Primitive (v : value)
  | Symbol (description : string).

(** The conversion done by a template literal, [`${t}`]; [None] is the
    [TypeError] it throws. *)
Definition ToString (t : token) : option string :=
  match t with
  | Primitive v => Some (ToString v)
  | Symbol _ => None
  end.

(** How a call of [stringify] completes. *)
Inductive completion : Type :=
  | Returns (s : string)
  | TypeError.

Record combination : Type := mkCombination {
  selector1 : loc;
  combinator : token;
  selector2 : loc
}.

Record CssSelector : Type := mkCssSelector {
  parts : gmap string (list value);
  hasElement : bool;
  hasId : bool;
  hasPseudoElement : bool;
  lastAdded : value;
  combined : option combination
}.

(** [new CssSelector()]: both parameters take the default [null], and the
    constructor adds no part. *)
Definition empty : CssSelector :=
  mkCssSelector ∅ false false false JNull None.

(** [cssSelectorBuilder.combine]: the new object, then the assignment to
    its field [combined].  No statement looks at [c], and none throws. *)
Definition combine (selector1 : loc) (c : token) (selector2 : loc)
    (h : list CssSelector) : outcome loc * list CssSelector :=
  let combined := length h in
  let h := h ++ [empty] in
  let h :=
    alter (λ o, mkCssSelector (parts o) (hasElement o) (hasId o)
                  (hasPseudoElement o) (lastAdded o)
                  (Some (mkCombination selector1 c selector2)))
          combined h in
  (Ok combined, h).

(** [stringify]: on a combined selector the two sides first, the left one
    before the right one, an exception of either ending the call; then the
    template literal, which converts the combinator. *)
Fixpoint stringify_fuel (fuel : nat) (h : list CssSelector) (this : loc)
    : option completion :=
  match fuel with
  | O => None
  | S fuel =>
      o ← h !! this;
      match combined o with
      | Some c =>
          r1 ← stringify_fuel fuel h (selector1 c);
          match r1 with
          | TypeError => Some TypeError
          | Returns selector1Str =>
              r2 ← stringify_fuel fuel h (selector2 c);
              match r2 with
              | TypeError => Some TypeError
              | Returns selector2Str =>
                  match ToString (combinator c) with
                  | Some t =>
                      Some (Returns (selector1Str +:+ " " +:+ t +:+ " "
                                     +:+ selector2Str))
                  | None => Some TypeError
                  end
              end
          end
      | None => Some (Returns (CssSelector.stringify_parts (parts o)))
      end
  end.

Definition stringify (h : list CssSelector) (this : loc)
    : option completion :=
  stringify_fuel (length h) h this.

End AnyToken.

(** An object of the builder above, whose combinator has a string
    conversion, among the objects of [AnyToken]. *)
Definition widen (o : CssSelector) : AnyToken.CssSelector :=
  AnyToken.mkCssSelector (parts o) (hasElement o) (hasId o)
    (hasPseudoElement o) (lastAdded o)
    ((λ c, AnyToken.mkCombination (selector1 c)
             (AnyToken.Primitive (combinator c)) (selector2 c))
       <$> combined o).

(** A combined selector refers to objects created before it, as [combine]
    is the only function that assigns to [combined]. *)
Definition sides_first (w : list AnyToken.CssSelector) : Prop :=
  ∀ l o c, w !! l = Some o → AnyToken.combined o = Some c →
    AnyToken.selector1 c < l ∧ AnyToken.selector2 c < l.


(** * The ticket seller, [sellTickets] *)

(** The loop of [sellTickets], from the counters [twentyFive] and [fifty]
    on the rest of the queue.  Bills and counters are integers; the
    [switch] compares a bill with 25, 50 and 100 and does nothing on any
    other bill. *)
Fixpoint sellTickets_from (twentyFive fifty : Z) (queue : list Z) : bool :=
  match queue with
  | [] => true
  | bill :: queue =>
      if (bill =? 25)%Z then
        sellTickets_from (twentyFive + 1) fifty queue
      else if (bill =? 50)%Z then
        if (twentyFive =? 0)%Z then false
        else sellTickets_from (twentyFive - 1) (fifty + 1) queue
      else if (bill =? 100)%Z then
        if (fifty >? 0)%Z && (twentyFive >? 0)%Z then
          sellTickets_from (twentyFive - 1) (fifty - 1) queue
        else if (twentyFive >=? 3)%Z then
          sellTickets_from (twentyFive - 3) fifty queue
        else false
      else sellTickets_from twentyFive fifty queue
  end.

Definition sellTickets (queue : list Z) : bool := sellTickets_from 0 0 queue.

(** The bills the [switch] has a case for. *)
Definition known_bill (bill : Z) : bool :=
  (bill =? 25)%Z || (bill =? 50)%Z || (bill =? 100)%Z.

(** Some way of giving change serves the whole queue, starting with [a]
    bills of 25 and [b] bills of 50 in the till: a 50 is changed with one
    25, a 100 with a 50 and a 25 or with three 25s, whichever the seller
    picks; a bill that is none of the three passes without change. *)
Inductive can_serve : Z → Z → list Z → Prop :=
  | serve_nobody a b : can_serve a b []
  | serve_25 a b queue :
      can_serve (a + 1) b queue → can_serve a b (25%Z :: queue)
  | serve_50 a b queue :
      (1 ≤ a)%Z → can_serve (a - 1) (b + 1) queue →
      can_serve a b (50%Z :: queue)
  | serve_100_with_50 a b queue :
      (1 ≤ a)%Z → (1 ≤ b)%Z → can_serve (a - 1) (b - 1) queue →
      can_serve a b (100%Z :: queue)
  | serve_100_with_25s a b queue :
      (3 ≤ a)%Z → can_serve (a - 3) b queue →
      can_serve a b (100%Z :: queue)
  | serve_other a b bill queue :
      known_bill bill = false → can_serve a b queue →
      can_serve a b (bill :: queue).

(** * Grouping, [group] *)

(** A JavaScript [Map]: its entries in insertion order, no key twice.
    [Map_get] is [map.get(key)], with [None] for [undefined];
    [Map_set] is [map.set(key, w)], which keeps the place of a key that is
    there and puts a new key last. *)
Fixpoint Map_get {K W : Type} `{EqDecision K}
    (map : list (K * W)) (key : K) : option W :=
  match map with
  | [] => None
  | (k, w) :: map => if decide (k = key) then Some w else Map_get map key
  end.

Fixpoint Map_set {K W : Type} `{EqDecision K}
    (map : list (K * W)) (key : K) (w : W) : list (K * W) :=
  match map with
  | [] => [(key, w)]
  | (k, w0) :: map =>
      if decide (k = key) then (k, w) :: map
      else (k, w0) :: Map_set map key w
  end.

(** The callback passed to [keys.filter], run for its effect on [map]:
    [map.has(el)] holds exactly when [map.get(el)] finds an array, which is
    then extended in place.  [values[index]] is always in range, as
    [values] is as long as [keys]. *)
Definition group_visit {K V : Type} `{EqDecision K} (values : list V)
    (map : list (K * list V)) (indexed : nat * K) : list (K * list V) :=
  let '(index, el) := indexed in
  match values !! index with
  | Some v =>
      match Map_get map el with
      | None => Map_set map el [v]
      | Some value => Map_set map el (value ++ [v])
      end
  | None => map
  end.

Definition group {A K V : Type} `{EqDecision K} (array : list A)
    (keySelector : A → K) (valueSelector : A → V) : list (K * list V) :=
  let keys := keySelector <$> array in
  let values := valueSelector <$> array in
  foldl (group_visit values) [] (imap pair keys).

(** What [group] does with one element of the array, its index left
    aside. *)
Definition group_add {A K V : Type} `{EqDecision K}
    (keySelector : A → K) (valueSelector : A → V)
    (map : list (K * list V)) (x : A) : list (K * list V) :=
  match Map_get map (keySelector x) with
  | None => Map_set map (keySelector x) [valueSelector x]
  | Some value => Map_set map (keySelector x) (value ++ [valueSelector x])
  end.

(** * Merging, [mergeObjects] *)

(** An object whose values are numbers, read through [Object.entries]: its
    own properties as pairs of a key and a value, in the order of
    enumeration.  The numbers are integers; [exact_sums] below tells when
    the code adds them without rounding. *)
Definition Object_entries (el : list (string * Z)) : list (string * Z) := el.

(** The body of the inner loop: [if (newObj[i][0] === newObj[t][0])
    newObj[i][1] += newObj[t][1]]. *)
Definition merge_visit (newObj : list (string * Z)) (i t : nat)
    : list (string * Z) :=
  match newObj !! i, newObj !! t with
  | Some (ki, vi), Some (kt, vt) =>
      if decide (ki = kt) then <[i := (ki, (vi + vt)%Z)]> newObj else newObj
  | _, _ => newObj
  end.

(** The first pair of loops: [i] from 0 while [i < length - 1], and for
    each [i], [t] from [i + 1] while [t < length]. *)
Definition merge_sums (newObj : list (string * Z)) : list (string * Z) :=
  foldl (λ newObj i,
           foldl (λ newObj t, merge_visit newObj i t) newObj
                 (seq (i + 1) (length newObj - (i + 1))))
        newObj
        (seq 0 (length newObj - 1)).

(** The last loop: a key enters [answer] with the value of its first
    pair.  The assignment [answer[first] = second] creates the property,
    except for the key [__proto__]: there it calls the setter that [answer]
    inherits from [Object.prototype], which does nothing with a number. *)
Definition merge_keep (answer : gmap string Z) (pair : string * Z)
    : gmap string Z :=
  let '(first, second) := pair in
  if decide (is_Some (answer !! first)) then answer
  else if decide (first = "__proto__") then answer
  else <[first := second]> answer.

Definition mergeObjects (objects : list (list (string * Z)))
    : gmap string Z :=
  let newObj := concat (Object_entries <$> objects) in
  foldl merge_keep ∅ (merge_sums newObj).

(** The values stored under [key] in a list of pairs, and their sum. *)
Definition values_under (key : string) (pairs : list (string * Z)) : list Z :=
  (filter (λ pair, pair.1 = key) pairs).*2.

Definition total (vs : list Z) : Z := foldr Z.add 0%Z vs.

(** The objects on which the sums of the model are those of the code.  The
    code adds double-precision numbers: integers whose absolute values add
    up to no more than 2^53 are added without rounding, in whatever order,
    since every sum on the way is an integer within that bound. *)
Definition magnitude (pairs : list (string * Z)) : Z :=
  total (Z.abs <$> pairs.*2).

Definition exact_sums (objects : list (list (string * Z))) : Prop :=
  (magnitude (concat objects) ≤ 2 ^ 53)%Z.

(** Each pair with its value increased by the values of the later pairs of
    the same key. *)
Fixpoint suffix_sums (pairs : list (string * Z)) : list (string * Z) :=
  match pairs with
  | [] => []
  | (k, v) :: pairs =>
      (k, (v + total (values_under k pairs))%Z) :: suffix_sums pairs
  end.

(** * The object utilities *)

(** The values of the properties: primitives, with integers for the
    numbers, and references to objects of the store.  On these [===] is
    equality. *)
Inductive prim : Type :=
  | PUndefined
  | PNull
  | PBool (b : bool)
  | PNum (n : Z)
  | PStr (s : string)
  | PRef (l : nat).

#[global] Instance prim_eq_dec : EqDecision prim.
Proof. solve_decision. Defined.

(** A plain object: its own enumerable properties in the order of
    enumeration, no key twice, and whether [Object.freeze] was applied to
    it.  Keys that name a property of [Object.prototype] are left out. *)
Record plain : Type := mkPlain {
  own : list (string * prim);
  frozen : bool
}.

(** [Object.keys(obj)] *)
Definition Object_keys (obj : plain) : list string := (own obj).*1.

(** [obj[key]], [undefined] when there is no such property. *)
Definition Object_get (obj : plain) (key : string) : prim :=
  default PUndefined (Map_get (own obj) key).

(** [obj[key] = v] outside strict mode, for a key other than [__proto__]:
    a frozen object stays as it is; a property that is there keeps its
    place, a new one comes last. *)
Definition Object_put (obj : plain) (key : string) (v : prim) : plain :=
  if frozen obj then obj else mkPlain (Map_set (own obj) key v) (frozen obj).

(** [delete obj[key]] outside strict mode: a frozen object stays as it
    is. *)
Definition Object_delete (obj : plain) (key : string) : plain :=
  if frozen obj then obj
  else mkPlain (filter (λ p, p.1 ≠ key) (own obj)) (frozen obj).

(** [Object.assign(target, source)] *)
Definition Object_assign (target source : plain) : plain :=
  foldl (λ target p, Object_put target p.1 p.2) target (own source).

(** [Object.freeze(obj)] *)
Definition Object_freeze (obj : plain) : plain := mkPlain (own obj) true.

(** The functions that create or change objects run on a store of objects
    and return a reference with the store they leave. *)
Definition shallowCopy (obj : nat) (σ : list plain) : nat * list plain :=
  let newObj := length σ in
  let σ := σ ++ [mkPlain [] false] in
  let σ :=
    match σ !! obj with
    | Some source => alter (λ target, Object_assign target source) newObj σ
    | None => σ
    end in
  (newObj, σ).

Definition removeProperties (obj : nat) (keys : list string)
    (σ : list plain) : nat * list plain :=
  let newObj := obj in
  (obj, foldl (λ σ el, alter (λ o, Object_delete o el) newObj σ) σ keys).

Definition makeImmutable (obj : nat) (σ : list plain) : nat * list plain :=
  (obj, alter Object_freeze obj σ).

(** The two functions that only read their arguments. *)
Definition compareObjects (obj1 obj2 : plain) : bool :=
  let answer := true in
  let keysObj1 := Object_keys obj1 in
  let keysObj2 := Object_keys obj2 in
  let answer :=
    if negb (Nat.eqb (length keysObj1) (length keysObj2)) then false
    else answer in
  foldl (λ answer key,
           if negb (bool_decide (Object_get obj1 key = Object_get obj2 key))
           then false else answer)
        answer keysObj1.

Definition isEmptyObject (obj : plain) : bool :=
  let answer := false in
  if Nat.eqb (length (Object_keys obj)) 0 then true else answer.

(** The properties of two objects are the same. *)
Definition same_properties (obj1 obj2 : plain) : Prop :=
  ∀ key, Map_get (own obj1) key = Map_get (own obj2) key.

(** * Sorting cities, [sortCitiesArray] *)

Record GeoEntity : Type := mkGeoEntity {
  country : string;
  city : string
}.

#[global] Instance GeoEntity_eq_dec : EqDecision GeoEntity.
Proof. solve_decision. Defined.

(** What the comparison function returns: a number, or the array [arr] of
    its last line. *)
Inductive compared : Type :=
  | Number (z : Z)
  | TheArray.

(** The function passed to [arr.sort].  [>] and [<] on strings compare
    them character by character, by character code: here byte by byte,
    which is the order of the code on the strings of [is_ascii]. *)
Definition compareCities (a b : GeoEntity) : compared :=
  if String.ltb (country b) (country a) then Number 1
  else if String.ltb (country a) (country b) then Number (-1)
  else if String.eqb (country a) (country b) then
    if String.ltb (city b) (city a) then Number 1
    else if String.ltb (city a) (city b) then Number (-1)
    else Number 0
  else TheArray.

(** [sort] converts the result to a number and takes what is not a number
    for 0. *)
Definition comparison_number (r : compared) : Z :=
  match r with
  | Number z => z
  | TheArray => 0%Z
  end.

(** [a] may come before [b]: the comparison is not positive. *)
Definition not_after (a b : GeoEntity) : Prop :=
  (comparison_number (compareCities a b) ≤ 0)%Z.

#[global] Instance not_after_dec : RelDecision not_after.
Proof. intros a b. unfold not_after. apply _. Defined.

(** [arr.sort(compare)], which sorts [arr] itself and returns it.  The
    language fixes the result of [sort], not its algorithm: a stable sort,
    here a merge sort. *)
Definition sortCitiesArray (arr : list GeoEntity) : list GeoEntity :=
  merge_sort not_after arr.

(** By country, and by city within a country. *)
Definition by_country_then_city (a b : GeoEntity) : Prop :=
  String.ltb (country a) (country b) = true
  ∨ (country a = country b ∧ String.leb (city a) (city b) = true).

(** The strings on which [String.ltb] is the comparison of the code.  [<]
    and [>] compare the UTF-16 code units of two strings, [String.ltb]
    their bytes; in a string of ASCII characters, those below U+0080,
    every character is one byte and one code unit, of the same number. *)
Definition is_ascii (s : string) : bool :=
  forallb (λ c, (Ascii.N_of_ascii c <? 128)%N) (String.list_ascii_of_string s).

Definition ascii_names (e : GeoEntity) : Prop :=
  is_ascii (country e) = true ∧ is_ascii (city e) = true.

(** * Spelling a word, [makeWord] *)

(** An element of [lettersArr]: a position left from the initial array, a
    letter written over it, or a hole of an array that a write beyond its
    end has extended.  Positions are natural numbers. *)
Inductive cell : Type :=
  | Position (n : nat)
  | Letter (letter : string)
  | Hole.

(** [arr[i] = x] on an array: within the array the element is replaced,
    beyond its end the array grows, with holes up to [i]. *)
Definition Array_put (arr : list cell) (i : nat) (x : cell) : list cell :=
  if decide (i < length arr) then <[i := x]> arr
  else arr ++ replicate (i - length arr) Hole ++ [x].

(** What [join] makes of an element: a number in decimal, a string as it
    is, nothing of a hole. *)
Definition cell_text (c : cell) : string :=
  match c with
  | Position n => pretty n
  | Letter letter => letter
  | Hole => ""
  end.

(** [lettersObject] is read through its entries, a letter with the array of
    its positions, in the order of enumeration. *)
Definition makeWord (lettersObject : list (string * list nat)) : string :=
  let lettersArr := Position <$> concat lettersObject.*2 in
  let lettersArr :=
    foldl (λ lettersArr letter,
             foldl (λ lettersArr el, Array_put lettersArr el (Letter letter))
                   lettersArr
                   (default [] (Map_get lettersObject letter)))
          lettersArr lettersObject.*1 in
  joined (cell_text <$> lettersArr).

(** The writes of [makeWord], one after the other. *)
Definition letter_writes (lettersObject : list (string * list nat))
    : list (nat * string) :=
  p ← lettersObject; (λ el, (el, p.1)) <$> p.2.

(** ** Running the primitives of the monad *)

Section running.

Context {A B : Type}.

Lemma bind_ok (m : M A) (f : A → M B) h a h' :
  m h = (Ok a, h') → (m ≫= f) h = f a h'.
Proof. intros E. unfold mbind, M_bind. by rewrite E. Qed.

Lemma bind_throw (m : M A) (f : A → M B) h e h' :
  m h = (Throw e, h') → (m ≫= f) h = (Throw e, h').
Proof. intros E. unfold mbind, M_bind. by rewrite E. Qed.

End running.

Lemma load_ok h this o : h !! this = Some o → load this h = (Ok o, h).
Proof. intros E. unfold load. by rewrite E. Qed.

Lemma load_dangling h this :
  h !! this = None → load this h = (Throw (Dangling this), h).
Proof. intros E. unfold load. by rewrite E. Qed.

Lemma lookup_stored (h : heap) this o o' :
  h !! this = Some o → <[this := o']> h !! this = Some o'.
Proof. intros E. apply list_lookup_insert_eq. by eapply lookup_lt_Some. Qed.

(** Rewrites one step of a computation whose object is known. *)
Ltac run_step :=
  first
    [ erewrite (bind_ok (load _)) by (apply load_ok; eassumption)
    | erewrite (bind_ok (load _))
        by (apply load_ok; eapply lookup_stored; eassumption)
    | erewrite (bind_ok (store _ _)) by reflexivity
    | erewrite (bind_ok (mret _)) by reflexivity
    | erewrite (bind_ok (alloc _)) by reflexivity ].

Lemma set_parts_ok h this o p :
  h !! this = Some o →
  set_parts this p h =
    (Ok (), <[this := mkCssSelector p (hasElement o) (hasId o)
                        (hasPseudoElement o) (lastAdded o) (combined o)]> h).
Proof. intros E. unfold set_parts. by run_step. Qed.

Lemma set_hasElement_ok h this o b :
  h !! this = Some o →
  set_hasElement this b h =
    (Ok (), <[this := mkCssSelector (parts o) b (hasId o)
                        (hasPseudoElement o) (lastAdded o) (combined o)]> h).
Proof. intros E. unfold set_hasElement. by run_step. Qed.

Lemma set_hasId_ok h this o b :
  h !! this = Some o →
  set_hasId this b h =
    (Ok (), <[this := mkCssSelector (parts o) (hasElement o) b
                        (hasPseudoElement o) (lastAdded o) (combined o)]> h).
Proof. intros E. unfold set_hasId. by run_step. Qed.

Lemma set_hasPseudoElement_ok h this o b :
  h !! this = Some o →
  set_hasPseudoElement this b h =
    (Ok (), <[this := mkCssSelector (parts o) (hasElement o) (hasId o) b
                        (lastAdded o) (combined o)]> h).
Proof. intros E. unfold set_hasPseudoElement. by run_step. Qed.

Lemma set_lastAdded_ok h this o v :
  h !! this = Some o →
  set_lastAdded this v h =
    (Ok (), <[this := mkCssSelector (parts o) (hasElement o) (hasId o)
                        (hasPseudoElement o) v (combined o)]> h).
Proof. intros E. unfold set_lastAdded. by run_step. Qed.

Lemma set_combined_ok h this o c :
  h !! this = Some o →
  set_combined this c h =
    (Ok (), <[this := mkCssSelector (parts o) (hasElement o) (hasId o)
                        (hasPseudoElement o) (lastAdded o) c]> h).
Proof. intros E. unfold set_combined. by run_step. Qed.

(** [addPart] leaves the array of the type with the value pushed, whether
    it had to create the array or not. *)
Lemma addPart_ok h this o type v :
  h !! this = Some o →
  CssSelector.addPart this type v h =
    (Ok (), <[this := mkCssSelector (push type v (parts o)) (hasElement o)
                        (hasId o) (hasPseudoElement o) (lastAdded o)
                        (combined o)]> h).
Proof.
  intros E. unfold CssSelector.addPart, push. run_step.
  destruct (parts o !! type) as [vs|] eqn:Ep.
  - run_step. run_step. erewrite set_parts_ok by eassumption.
    by rewrite Ep.
  - erewrite (bind_ok (set_parts _ _)) by (by apply set_parts_ok).
    run_step. simpl.
    erewrite set_parts_ok by (eapply lookup_stored; eassumption).
    simpl. rewrite lookup_insert_eq, insert_insert_eq.
    by rewrite list_insert_insert_eq.
Qed.

Lemma validateOrder_ok h this o nextType :
  h !! this = Some o →
  CssSelector.validateOrder this nextType h =
    if (rank (lastAdded o) >? rank (JString nextType))%Z
    then (Throw OrderViolationError, h) else (Ok (), h).
Proof.
  intros E. unfold CssSelector.validateOrder. run_step.
  unfold rank. by destruct (_ >? _)%Z.
Qed.

(** ** What each call does to the store *)

(** A call on an object first decides whether to refuse; a refused call
    leaves the store as it found it, an accepted one replaces the object
    by [added m v o] and returns [this] for chaining. *)
Lemma call_run h this o m v :
  h !! this = Some o →
  call m this v h =
    match refusal m o with
    | Some e => (Throw e, h)
    | None => (Ok this, <[this := added m v o]> h)
    end.
Proof.
  intros E. pose proof (lookup_stored h this o) as Hst.
  unfold refusal, rank_of.
  destruct m; simpl;
    unfold CssSelector.element, CssSelector.id, CssSelector.class,
      CssSelector.attr, CssSelector.pseudoClass, CssSelector.pseudoElement;
    (destruct (rank (lastAdded o) >? _)%Z eqn:Eo;
     [ erewrite bind_throw;
         [reflexivity | by erewrite validateOrder_ok, Eo by eassumption]
     | erewrite bind_ok by (by erewrite validateOrder_ok, Eo by eassumption) ]);
    try (run_step;
         match goal with
         | |- context [if ?b then throw _ else _] => destruct b eqn:Eh
         end;
         [ by erewrite bind_throw by reflexivity | run_step ]);
    (erewrite (bind_ok (CssSelector.addPart _ _ _))
       by (by apply addPart_ok));
    repeat
      (first
         [ erewrite (bind_ok (set_hasElement _ _))
             by (apply set_hasElement_ok; by apply Hst)
         | erewrite (bind_ok (set_hasId _ _))
             by (apply set_hasId_ok; by apply Hst)
         | erewrite (bind_ok (set_hasPseudoElement _ _))
             by (apply set_hasPseudoElement_ok; by apply Hst)
         | erewrite (bind_ok (set_lastAdded _ _))
             by (apply set_lastAdded_ok; by apply Hst) ];
       simpl; rewrite ?list_insert_insert_eq);
    unfold added; simpl; by rewrite ?Eh.
Qed.

(** A call through a reference bound to no object throws before it changes
    anything. *)
Lemma call_dangling (h : heap) this m v :
  h !! this = None → call m this v h = (Throw (Dangling this), h).
Proof.
  intros E.
  destruct m; simpl;
    unfold CssSelector.element, CssSelector.id, CssSelector.class,
      CssSelector.attr, CssSelector.pseudoClass, CssSelector.pseudoElement;
    erewrite bind_throw; try reflexivity;
    unfold CssSelector.validateOrder;
    erewrite bind_throw; try reflexivity; by apply load_dangling.
Qed.

Lemma lookup_fresh (h : heap) o : (h ++ [o]) !! length h = Some o.
Proof. by apply list_lookup_middle. Qed.

Lemma insert_fresh (h : heap) o o' : <[length h := o']> (h ++ [o]) = h ++ [o'].
Proof.
  rewrite insert_app_r_alt by lia. by rewrite Nat.sub_diag.
Qed.

(** The constructor with no arguments, [new CssSelector()]. *)
Lemma constructor_empty_run (h : heap) :
  CssSelector.constructor JUndefined JUndefined h =
    (Ok (length h), h ++ [CssSelector.empty]).
Proof. reflexivity. Qed.

(** A facade entry point creates one object, at the end of the store. *)
Lemma create_run (h : heap) m v :
  create m v h = (Ok (length h), h ++ [created m v]).
Proof.
  unfold created.
  destruct (nullish v) eqn:En.
  - destruct v; try discriminate; by destruct m.
  - pose proof (lookup_fresh h CssSelector.empty) as Hf.
    assert (Hnn : negb (strict_eq (default_null v) JNull) = true)
      by (by destruct v).
    assert (Hd : default_null v = v) by (by destruct v).
    destruct m; simpl;
      unfold cssSelectorBuilder.element, cssSelectorBuilder.id,
        cssSelectorBuilder.class, cssSelectorBuilder.attr,
        cssSelectorBuilder.pseudoClass, cssSelectorBuilder.pseudoElement,
        CssSelector.constructor;
      run_step; rewrite Hnn, Hd; simpl;
      (erewrite bind_ok;
       [ reflexivity
       | erewrite (bind_ok (CssSelector.addPart _ _ _))
           by (by apply addPart_ok);
         repeat
           (first
              [ erewrite (bind_ok (set_hasElement _ _))
                  by (apply set_hasElement_ok;
                      by apply (lookup_stored _ _ _ _ Hf))
              | erewrite (bind_ok (set_hasId _ _))
                  by (apply set_hasId_ok;
                      by apply (lookup_stored _ _ _ _ Hf))
              | erewrite (bind_ok (set_hasPseudoElement _ _))
                  by (apply set_hasPseudoElement_ok;
                      by apply (lookup_stored _ _ _ _ Hf))
              | erewrite (bind_ok (mret _)) by reflexivity ];
            simpl; rewrite ?list_insert_insert_eq);
         erewrite set_lastAdded_ok by (by apply (lookup_stored _ _ _ _ Hf));
         simpl; by rewrite ?list_insert_insert_eq, insert_fresh ]).
Qed.

(** [combine] creates one object, at the end of the store, and touches no
    other. *)
Lemma combine_run (h : heap) l1 c l2 :
  cssSelectorBuilder.combine l1 c l2 h =
    (Ok (length h), h ++ [joint l1 c l2]).
Proof.
  unfold cssSelectorBuilder.combine.
  erewrite bind_ok by apply constructor_empty_run.
  erewrite bind_ok by (apply set_combined_ok, lookup_fresh).
  simpl. unfold mret, M_ret. by rewrite insert_fresh.
Qed.

(** The method [combine] of the class does what the facade's does. *)
Lemma method_combine_run (h : heap) this c selector :
  CssSelector.combine this c selector h =
    (Ok (length h), h ++ [joint this c selector]).
Proof. apply combine_run. Qed.

(** ** Strings *)

Lemma append_nil_r (s : string) : s +:+ "" = s.
Proof. induction s as [|a s IH]; [done|]. cbv [String.append]. fold String.append. by rewrite IH. Qed.

Lemma append_assoc (s t u : string) : (s +:+ t) +:+ u = s +:+ t +:+ u.
Proof.
  induction s as [|a s IH]; [done|].
  change (String a ((s +:+ t) +:+ u) = String a (s +:+ t +:+ u)).
  by rewrite IH.
Qed.

Lemma length_append (s t : string) :
  String.length (s +:+ t) = String.length s + String.length t.
Proof.
  induction s as [|a s IH]; [done|].
  change (S (String.length (s +:+ t)) = S (String.length s + String.length t)).
  by rewrite IH.
Qed.

Lemma joined_app (xs ys : list string) :
  joined (xs ++ ys) = joined xs +:+ joined ys.
Proof.
  induction xs as [|x xs IH]; [done|].
  change (x +:+ joined (xs ++ ys) = (x +:+ joined xs) +:+ joined ys).
  by rewrite IH, append_assoc.
Qed.

Lemma segment_nil m : segment m [] = "".
Proof. reflexivity. Qed.

Lemma segment_snoc m vs v : segment m (vs ++ [v]) = segment m vs +:+ decorate m v.
Proof.
  unfold segment. rewrite fmap_app, joined_app.
  change (joined (decorate m <$> [v])) with (decorate m v +:+ "").
  by rewrite append_nil_r.
Qed.

Lemma segment_app m vs ws : segment m (vs ++ ws) = segment m vs +:+ segment m ws.
Proof. unfold segment. by rewrite fmap_app, joined_app. Qed.

(** ** Ranks *)

Lemma rank_of_values :
  rank_of Element = 0%Z ∧ rank_of Id = 1%Z ∧ rank_of Class = 2%Z ∧
  rank_of Attr = 3%Z ∧ rank_of PseudoClass = 4%Z ∧
  rank_of PseudoElement = 5%Z.
Proof. by repeat split. Qed.

Lemma rank_null : rank JNull = (-1)%Z.
Proof. reflexivity. Qed.

Lemma rank_bounds v : (-1 ≤ rank v ≤ 5)%Z.
Proof.
  unfold rank, indexOf, order, indexOf_from, strict_eq.
  repeat case_bool_decide; lia.
Qed.

(** A value has the rank of a type only if it is that type. *)
Lemma rank_eq v m : rank v = rank_of m → v = JString (type_of m).
Proof.
  destruct (rank_of_values) as (E0 & E1 & E2 & E3 & E4 & E5).
  destruct m; rewrite ?E0, ?E1, ?E2, ?E3, ?E4, ?E5;
    unfold rank, indexOf, order, indexOf_from, strict_eq;
    repeat case_bool_decide; subst; simpl; intros Hv; first [done | lia].
Qed.

Lemma type_of_inj : Inj (=) (=) type_of.
Proof. intros [] []; by vm_compute. Qed.

Lemma errors_differ : OrderViolationError ≠ DuplicateFragmentError.
Proof. by vm_compute. Qed.

(** ** The serialisation of a simple selector *)

Lemma foldl_values (pre suf : string) (vs : list value) (result : string) :
  foldl (λ result v, result +:+ pre +:+ ToString v +:+ suf) result vs =
    result +:+ joined ((λ v, pre +:+ ToString v +:+ suf) <$> vs).
Proof.
  revert result. induction vs as [|v vs IH]; intros result.
  - by rewrite append_nil_r.
  - simpl. rewrite IH.
    change (joined ((pre +:+ ToString v +:+ suf) :: _))
      with ((pre +:+ ToString v +:+ suf) +:+
            joined ((λ v, pre +:+ ToString v +:+ suf) <$> vs)).
    by rewrite !append_assoc.
Qed.

(** One round of the outer loop appends the segment of its type. *)
Lemma stringify_type_segment p result m :
  CssSelector.stringify_type p result (type_of m) =
    result +:+ segment m (default [] (p !! type_of m)).
Proof.
  unfold CssSelector.stringify_type.
  destruct (p !! type_of m) as [vs|]; simpl.
  - destruct m; simpl; rewrite foldl_values; unfold segment;
      do 2 f_equal; apply list_fmap_ext; intros _ v _; unfold decorate;
      by rewrite ?append_nil_r.
  - by rewrite segment_nil, append_nil_r.
Qed.

(** The loops of [stringify] compute what the specification words. *)
Lemma stringify_parts_spec p :
  CssSelector.stringify_parts p = spec_stringify_parts p.
Proof.
  unfold CssSelector.stringify_parts, spec_stringify_parts, outputOrder,
    canonical.
  change (foldl (CssSelector.stringify_type p) ""
            [type_of Element; type_of Id; type_of Class; type_of Attr;
             type_of PseudoClass; type_of PseudoElement] =
          joined ((λ m, segment m (default [] (p !! type_of m))) <$>
                  [Element; Id; Class; Attr; PseudoClass; PseudoElement])).
  cbn [foldl fmap list_fmap joined foldr].
  rewrite !stringify_type_segment, !append_assoc, append_nil_r.
  reflexivity.
Qed.

(** ** The serialisation of any selector *)

(** More fuel than the location is never needed. *)
Lemma stringify_fuel_stable h :
  heap_inv h →
  ∀ l n, l < n →
    CssSelector.stringify_fuel n h l = CssSelector.stringify_fuel (S l) h l.
Proof.
  intros Hinv l. induction (lt_wf l) as [l _ IH]. intros n Hn.
  destruct n as [|n]; [lia|]. simpl.
  destruct (h !! l) as [o|] eqn:Eo; simpl; [|done].
  destruct (combined o) as [c|] eqn:Ec; [|done].
  destruct (Hinv l o Eo) as [_ Hc]. destruct (Hc c Ec) as [H1 H2].
  rewrite (IH _ H1 n), (IH _ H1 l), (IH _ H2 n), (IH _ H2 l) by lia.
  done.
Qed.

(** The equation of [stringify], free of fuel. *)
Lemma stringify_unfold h l o :
  heap_inv h → h !! l = Some o →
  CssSelector.stringify h l =
    match combined o with
    | Some c =>
        selector1Str ← CssSelector.stringify h (selector1 c);
        selector2Str ← CssSelector.stringify h (selector2 c);
        Some (selector1Str +:+ " " +:+ ToString (combinator c) +:+ " "
              +:+ selector2Str)
    | None => Some (CssSelector.stringify_parts (parts o))
    end.
Proof.
  intros Hinv Eo. pose proof (lookup_lt_Some _ _ _ Eo) as Hl.
  destruct (combined o) as [c|] eqn:Ec.
  - destruct (Hinv l o Eo) as [_ Hc]. destruct (Hc c Ec) as [H1 H2].
    unfold CssSelector.stringify.
    rewrite (stringify_fuel_stable h Hinv (selector1 c) (length h)),
      (stringify_fuel_stable h Hinv (selector2 c) (length h)) by lia.
    destruct (length h) as [|n] eqn:En; [lia|].
    cbn [CssSelector.stringify_fuel]. rewrite Eo. cbn [mbind option_bind].
    rewrite Ec.
    rewrite (stringify_fuel_stable h Hinv (selector1 c) n),
      (stringify_fuel_stable h Hinv (selector2 c) n) by lia.
    done.
  - unfold CssSelector.stringify.
    destruct (length h) as [|n] eqn:En; [lia|].
    simpl. rewrite Eo. simpl. by rewrite Ec.
Qed.

(** [stringify] returns on every selector of the store: the fuel is
    enough. *)
Lemma stringify_total h :
  heap_inv h → ∀ l, l < length h → is_Some (CssSelector.stringify h l).
Proof.
  intros Hinv l. induction (lt_wf l) as [l _ IH]. intros Hl.
  destruct (lookup_lt_is_Some_2 h l Hl) as [o Eo].
  rewrite (stringify_unfold h l o Hinv Eo).
  destruct (combined o) as [c|] eqn:Ec; [|done].
  destruct (Hinv l o Eo) as [_ Hc]. destruct (Hc c Ec) as [H1 H2].
  destruct (IH _ H1) as [s1 E1]; [lia|].
  destruct (IH _ H2) as [s2 E2]; [lia|].
  rewrite E1, E2. done.
Qed.

Lemma stringify_simple h l o :
  h !! l = Some o → simple o →
  CssSelector.stringify h l = Some (spec_stringify_parts (parts o)).
Proof.
  intros Eo Hs. pose proof (lookup_lt_Some _ _ _ Eo) as Hl.
  unfold CssSelector.stringify.
  destruct (length h) as [|n]; [lia|].
  simpl. rewrite Eo. simpl. rewrite Hs. by rewrite stringify_parts_spec.
Qed.

(** ** The invariants hold of every reachable store *)

Lemma refusal_None m o :
  refusal m o = None ↔ (rank (lastAdded o) ≤ rank_of m)%Z ∧ has m o = false.
Proof.
  unfold refusal.
  destruct (Z.gtb_spec (rank (lastAdded o)) (rank_of m));
    destruct (has m o); split; try done; intros [? ?]; try done; lia.
Qed.

Lemma has_added_same m v o : once m = true → has m (added m v o) = true.
Proof. by destruct m. Qed.

Lemma has_added_other m m' v o : m ≠ m' → has m' (added m v o) = has m' o.
Proof. by destruct m, m'. Qed.

Lemma lookup_push_same type v (p : gmap string (list value)) :
  push type v p !! type = Some (default [] (p !! type) ++ [v]).
Proof. unfold push. by rewrite lookup_insert_eq. Qed.

Lemma lookup_push_other type type' v (p : gmap string (list value)) :
  type ≠ type' → push type v p !! type' = p !! type'.
Proof. intros Hne. unfold push. by rewrite lookup_insert_ne. Qed.

Lemma node_inv_empty : node_inv CssSelector.empty.
Proof.
  split.
  - intros type vs E. simpl in E. by rewrite lookup_empty in E.
  - intros m Hm. simpl. rewrite lookup_empty.
    split; [by destruct m | by intros [? ?]].
Qed.

Lemma node_inv_joint l1 c l2 : node_inv (joint l1 c l2).
Proof.
  split.
  - intros type vs E. simpl in E. by rewrite lookup_empty in E.
  - intros m Hm. simpl. rewrite lookup_empty.
    split; [by destruct m | by intros [? ?]].
Qed.

(** An accepted call keeps the invariant of its object. *)
Lemma node_inv_added m v o :
  node_inv o → refusal m o = None → node_inv (added m v o).
Proof.
  intros [Hp Hf] [Hr Hh]%refusal_None. split.
  - intros type vs. cbn [added parts lastAdded].
    destruct (decide (type_of m = type)) as [<-|Hne].
    + rewrite lookup_push_same. intros [= <-]. split.
      * by destruct (default [] (parts o !! type_of m)).
      * exists m. split; [done|]. unfold rank_of. lia.
    + rewrite lookup_push_other by done. intros E.
      destruct (Hp type vs E) as [Hvs (m' & -> & Hm')].
      split; [done|]. exists m'. split; [done|]. fold (rank_of m). lia.
  - intros m' Hm'. cbn [added parts].
    destruct (decide (m = m')) as [<-|Hne].
    + rewrite has_added_same, lookup_push_same by done. by split.
    + rewrite has_added_other, lookup_push_other by
        (try done; intros ?%type_of_inj; done).
      by apply Hf.
Qed.

Lemma node_inv_created m v : node_inv (created m v).
Proof.
  unfold created. destruct (nullish v); [apply node_inv_empty|].
  apply node_inv_added; [apply node_inv_empty|].
  apply refusal_None. simpl. split; [|by destruct m].
  pose proof (rank_bounds (JString (type_of m))). unfold rank_of.
  change (rank JNull) with (-1)%Z. lia.
Qed.

Lemma heap_inv_nil : heap_inv [].
Proof. intros l o E. by rewrite lookup_nil in E. Qed.

Lemma heap_inv_snoc h o :
  heap_inv h → node_inv o →
  (∀ c, combined o = Some c → selector1 c < length h ∧ selector2 c < length h) →
  heap_inv (h ++ [o]).
Proof.
  intros Hinv Ho Hc l o' E.
  apply lookup_app_Some in E as [E|[Hl E]]; [by apply Hinv|].
  apply list_lookup_singleton_Some in E as [Hz <-].
  split; [done|]. intros c Ec. destruct (Hc c Ec). lia.
Qed.

Lemma heap_inv_insert h this o o' :
  heap_inv h → h !! this = Some o → node_inv o' → combined o' = combined o →
  heap_inv (<[this := o']> h).
Proof.
  intros Hinv Eo Ho' Hc l o'' E.
  apply list_lookup_insert_Some in E as [(-> & <- & Hl)|[Hne E]].
  - split; [done|]. rewrite Hc. by apply Hinv.
  - by apply Hinv.
Qed.

Lemma heap_inv_call h m this v : heap_inv h → heap_inv (snd (call m this v h)).
Proof.
  intros Hinv. destruct (h !! this) as [o|] eqn:Eo.
  - rewrite (call_run h this o) by done.
    destruct (refusal m o) eqn:Er; [done|]. simpl.
    eapply heap_inv_insert; try done.
    apply node_inv_added; [by apply (Hinv this)|done].
  - by rewrite call_dangling.
Qed.

Lemma reachable_inv h : reachable h → heap_inv h.
Proof.
  induction 1 as [|h m v _ IH|h m this v _ IH|h l1 c l2 _ IH H1 H2
                  |h l1 c l2 _ IH H1 H2].
  - apply heap_inv_nil.
  - rewrite create_run. simpl.
    apply heap_inv_snoc; [done|apply node_inv_created|].
    unfold created. by destruct (nullish v).
  - by apply heap_inv_call.
  - rewrite combine_run. simpl.
    apply heap_inv_snoc; [done|apply node_inv_joint|].
    by intros c' [= <-].
  - rewrite method_combine_run. simpl.
    apply heap_inv_snoc; [done|apply node_inv_joint|].
    by intros c' [= <-].
Qed.

Lemma reachable_chain ops : ∀ this h,
  reachable h → reachable (snd (chain this ops h)).
Proof.
  induction ops as [|[m v] ops IH]; intros this h Hr; [done|].
  simpl. unfold mbind, M_bind.
  pose proof (reach_call h m this v Hr) as Hc.
  destruct (call m this v h) as [[l|e] h']; [by apply IH | done].
Qed.

Lemma reachable_build m v ops h :
  reachable h → reachable (snd (build m v ops h)).
Proof.
  intros Hr. unfold build. rewrite (bind_ok _ _ _ _ _ (create_run h m v)).
  apply reachable_chain. pose proof (reach_create h m v Hr) as Hc.
  by rewrite create_run in Hc.
Qed.

(** ** The examples of the source's documentation *)

Example documented_example_stringify :
  stringify_of documented_example =
    Some "div#main.container.draggable + table#data ~ tr:nth-of-type(even)   td:nth-of-type(even)".
Proof. vm_compute; reflexivity. Qed.

Example element_attr_pseudoClass :
  stringify_of (build Element (JString "a")
                  [(Attr, JString "href$=.png"); (PseudoClass, JString "focus")])
    = Some "a[href$=.png]:focus".
Proof. vm_compute; reflexivity. Qed.

Example repeated_element :
  fst (build Element (JString "table") [(Element, JString "div")] [])
    = Throw DuplicateFragmentError.
Proof. vm_compute; reflexivity. Qed.

Example id_then_element :
  fst (build Id (JString "main") [(Element, JString "div")] [])
    = Throw OrderViolationError.
Proof. vm_compute; reflexivity. Qed.

Example null_token :
  stringify_of (a ← build Element (JString "a") [];
                b ← build Element (JString "b") [];
                cssSelectorBuilder.combine a JNull b)
    = Some "a null b".
Proof. vm_compute; reflexivity. Qed.

(** * The claims *)

(** ** Order and cardinality checks *)

(** C2.  The canonical ranks of element, id, class, attr, pseudoClass and
    pseudoElement are 0 to 5 in this order.  On every object, each of the
    six fragment-adding calls fails with [OrderViolationError] exactly when
    the canonical rank of the new kind is strictly less than the rank of the
    kind added last.  So a call of equal rank never fails the order check,
    and neither does the first addition to an object, whose [lastAdded] is
    still [null]. *)
Theorem order_check_exact (h : heap) this o m v :
  h !! this = Some o →
  rank_of <$> canonical = [0; 1; 2; 3; 4; 5]%Z
  ∧ (fst (call m this v h) = Throw OrderViolationError
     ↔ (rank_of m < rank (lastAdded o))%Z)
  ∧ (rank (lastAdded o) = rank_of m →
       fst (call m this v h) ≠ Throw OrderViolationError)
  ∧ (lastAdded o = JNull →
       fst (call m this v h) ≠ Throw OrderViolationError).
Proof.
  intros Eo.
  assert (Hiff : fst (call m this v h) = Throw OrderViolationError
                 ↔ (rank_of m < rank (lastAdded o))%Z).
  { rewrite (call_run h this o) by done. unfold refusal.
    destruct (Z.gtb_spec (rank (lastAdded o)) (rank_of m)) as [Hgt|Hle].
    - simpl. split; [lia | done].
    - split; [|lia].
      destruct (has m o); simpl; [|done].
      intros [= Hm]. }
  split; [done|]. split; [done|]. split.
  - intros Heq Hf. apply Hiff in Hf. lia.
  - intros Hn Hf. apply Hiff in Hf. rewrite Hn, rank_null in Hf.
    pose proof (rank_bounds (JString (type_of m))). unfold rank_of in Hf. lia.
Qed.

(** [id('main').element('div')]: the rank of [element] is less than the
    rank of [id], and the call fails the order check. *)
Lemma order_check_exact_witness :
  ∃ o, main_only !! 0 = Some o
    ∧ (rank_of Element < rank (lastAdded o))%Z
    ∧ fst (call Element 0 (JString "div") main_only)
        = Throw OrderViolationError.
Proof.
  exists (default CssSelector.empty (main_only !! 0)).
  split; [vm_compute; reflexivity|]. split; [by vm_compute|].
  refine (proj2 (proj1 (proj2 (order_check_exact main_only 0
                                 (default CssSelector.empty (main_only !! 0))
                                 Element (JString "div") _))) _);
    by vm_compute.
Defined.

(** C5.  A fragment-adding call that throws leaves the store as it found
    it: the parts, the flags and [lastAdded] of every object are what they
    were, and so is the result of [stringify]. *)
Theorem failed_call_changes_nothing (h h' : heap) this m v e :
  call m this v h = (Throw e, h') →
  h' = h ∧ ∀ l, CssSelector.stringify h' l = CssSelector.stringify h l.
Proof.
  intros E.
  assert (h' = h) as ->; [|done].
  destruct (h !! this) as [o|] eqn:Eo.
  - rewrite (call_run h this o) in E by done.
    destruct (refusal m o); by inversion E.
  - rewrite call_dangling in E by done. by inversion E.
Qed.

(** [element('div').id('main').element('span')] throws and changes
    nothing. *)
Lemma failed_call_changes_nothing_witness :
  call Element 0 (JString "span") div_main = (Throw OrderViolationError, div_main)
  ∧ div_main = div_main
  ∧ ∀ l, CssSelector.stringify div_main l = CssSelector.stringify div_main l.
Proof.
  split; [by vm_compute|].
  apply (failed_call_changes_nothing div_main div_main 0 Element
           (JString "span") OrderViolationError).
  by vm_compute.
Defined.

(** C1, with the order check taken into account.  In every reachable
    store, a second [element], [id] or [pseudoElement] call on an object
    that already holds a part of that kind always throws and changes
    nothing.  The order check runs first: the call throws
    [DuplicateFragmentError] when the part added last is of that same kind,
    and [OrderViolationError] when a part of another kind, which then ranks
    higher, was added in between.  After a [pseudoElement] nothing ranks
    higher, so a second [pseudoElement] always throws
    [DuplicateFragmentError]. *)
Theorem second_singleton_refused (h : heap) this o m v :
  reachable h → h !! this = Some o → once m = true →
  is_Some (parts o !! type_of m) →
  call m this v h =
    (Throw (if decide (lastAdded o = JString (type_of m))
            then DuplicateFragmentError else OrderViolationError), h)
  ∧ (lastAdded o ≠ JString (type_of m) → (rank_of m < rank (lastAdded o))%Z)
  ∧ (m = PseudoElement → lastAdded o = JString (type_of m)).
Proof.
  intros Hr%reachable_inv Eo Hm [vs Hp].
  destruct (Hr this o Eo) as [[Hparts Hflags] _].
  assert (Hh : has m o = true) by (apply Hflags; [done | by exists vs]).
  assert (Hle : (rank_of m ≤ rank (lastAdded o))%Z).
  { destruct (Hparts _ _ Hp) as [_ (m' & Heq & Hle)].
    by apply type_of_inj in Heq as <-. }
  assert (Hne : lastAdded o ≠ JString (type_of m) →
                (rank_of m < rank (lastAdded o))%Z).
  { intros Hne. destruct (decide (rank (lastAdded o) = rank_of m)) as [E|E].
    - by apply rank_eq in E.
    - lia. }
  split; [|split; [done|]].
  - rewrite (call_run h this o) by done. unfold refusal. rewrite Hh.
    case_decide as Hd.
    + rewrite Hd. fold (rank_of m).
      by destruct (Z.gtb_spec (rank_of m) (rank_of m)); [lia|].
    + specialize (Hne Hd).
      by destruct (Z.gtb_spec (rank (lastAdded o)) (rank_of m)); [|lia].
  - intros ->. apply rank_eq. pose proof (rank_bounds (lastAdded o)).
    change (rank_of PseudoElement) with 5%Z in *. lia.
Qed.

(** [element('div').id('main')] holds an element; a second [element] is
    refused, here by the order check as [id] was added last. *)
Lemma second_singleton_refused_witness :
  ∃ o, div_main !! 0 = Some o
    ∧ is_Some (parts o !! type_of Element)
    ∧ reachable div_main
    ∧ once Element = true
    ∧ lastAdded o ≠ JString (type_of Element)
    ∧ call Element 0 (JString "span") div_main =
        (Throw (if decide (lastAdded o = JString (type_of Element))
                then DuplicateFragmentError else OrderViolationError),
         div_main).
Proof.
  eexists. split; [vm_compute; reflexivity|].
  match goal with
  | |- ?P ∧ _ => assert (Hp : P) by (eexists; vm_compute; reflexivity)
  end.
  assert (Hr : reachable div_main) by (apply reachable_build, reach_nil).
  split; [exact Hp|]. split; [exact Hr|]. split; [reflexivity|].
  split; [by vm_compute|].
  match goal with
  | |- context [lastAdded ?o] =>
      refine (proj1 (second_singleton_refused div_main 0 o Element
                       (JString "span") Hr _ eq_refl Hp))
  end.
  vm_compute; reflexivity.
Defined.

(** The scenario [element('div').id('main')] followed by
    [.element('span')]: the node holds an element, and the second [element]
    throws the order error, which is not the duplicate error. *)
Lemma second_element_after_id :
  is_Some (parts (default CssSelector.empty (div_main !! 0)) !! "element")
  ∧ fst (call Element 0 (JString "span") div_main) = Throw OrderViolationError
  ∧ OrderViolationError ≠ DuplicateFragmentError.
Proof.
  split; [eexists; vm_compute; reflexivity|].
  split; [by vm_compute | apply errors_differ].
Qed.

(** ** Serialisation of a simple selector *)

Lemma values_of_cons m m' v frags :
  values_of m' ((m, v) :: frags) =
    if decide (m = m') then v :: values_of m' frags else values_of m' frags.
Proof.
  unfold values_of. rewrite filter_cons. simpl. by case_decide.
Qed.

Lemma values_of_app m frags1 frags2 :
  values_of m (frags1 ++ frags2) = values_of m frags1 ++ values_of m frags2.
Proof. unfold values_of. by rewrite filter_app, fmap_app. Qed.

Lemma default_push type type' v (p : gmap string (list value)) :
  default [] (push type v p !! type') =
    default [] (p !! type') ++ (if decide (type = type') then [v] else []).
Proof.
  case_decide as Hd.
  - subst. by rewrite lookup_push_same.
  - rewrite lookup_push_other by done. by rewrite app_nil_r.
Qed.

(** A chain of accepted calls returns the object it started from, with the
    values of each kind pushed in the order of the calls. *)
Lemma chain_parts ops : ∀ this (h : heap) o l h',
  h !! this = Some o → chain this ops h = (Ok l, h') →
  l = this ∧ ∃ o', h' !! this = Some o' ∧ combined o' = combined o ∧
    ∀ m', default [] (parts o' !! type_of m') =
          default [] (parts o !! type_of m') ++ values_of m' ops.
Proof.
  induction ops as [|[m v] ops IH]; intros this h o l h' Eo E.
  - inversion E; subst. split; [done|]. exists o. repeat split; [done|].
    intros m'. by rewrite app_nil_r.
  - simpl in E. unfold mbind, M_bind in E.
    rewrite (call_run h this o) in E by done.
    destruct (refusal m o); [done|].
    destruct (IH this _ (added m v o) l h' (lookup_stored _ _ _ _ Eo) E)
      as (-> & o' & Eo' & Hc & Hp).
    split; [done|]. exists o'. repeat split; [done..|].
    intros m'. rewrite Hp. cbn [added parts]. rewrite default_push.
    rewrite values_of_cons, <- app_assoc. f_equal.
    destruct (decide (m = m')) as [->|Hne].
    + by rewrite decide_True.
    + rewrite decide_False; [done|]. by intros ?%type_of_inj.
Qed.

Lemma created_parts m v m' :
  default [] (parts (created m v) !! type_of m') = values_of m' (seed m v).
Proof.
  unfold created, seed. destruct (nullish v).
  - simpl. by rewrite lookup_empty.
  - cbn [added parts CssSelector.empty]. rewrite default_push, lookup_empty.
    rewrite values_of_cons. simpl.
    destruct (decide (m = m')) as [->|Hne].
    + by rewrite decide_True.
    + rewrite decide_False; [done|]. by intros ?%type_of_inj.
Qed.

Lemma has_not_once m o : once m = false → has m o = false.
Proof. by destruct m. Qed.

Lemma rank_of_nonneg m : (0 ≤ rank_of m)%Z.
Proof. by destruct m. Qed.

Lemma rank_of_inj m m' : rank_of m = rank_of m' → m = m'.
Proof. intros E. apply rank_eq in E. injection E as E. by apply type_of_inj. Qed.

(** On an object whose last part is of kind [last], the two checks of a
    call accept exactly the kinds that may follow [last] in a valid
    sequence. *)
Lemma refusal_valid o last m :
  node_inv o → lastAdded o = last_value last →
  (∀ m0, last = Some m0 → once m0 = true → has m0 o = true) →
  refusal m o = None ↔
    match last with
    | None => true
    | Some m0 =>
        (rank_of m0 <? rank_of m)%Z || (bool_decide (m0 = m) && negb (once m))
    end = true.
Proof.
  intros [Hp Hf] Hl Hh. rewrite refusal_None, Hl.
  assert (Hhas : has m o = true → (rank_of m ≤ rank (lastAdded o))%Z).
  { intros Hm. destruct (once m) eqn:Ho.
    - apply Hf in Hm as [vs Hvs]; [|done].
      destruct (Hp _ _ Hvs) as [_ (m' & Heq & Hle)].
      by apply type_of_inj in Heq as <-.
    - by rewrite has_not_once in Hm. }
  rewrite Hl in Hhas. pose proof (rank_of_nonneg m) as Hnn.
  destruct last as [m0|]; simpl in *.
  - fold (rank_of m0) in *.
    rewrite orb_true_iff, andb_true_iff, Z.ltb_lt, bool_decide_eq_true,
      negb_true_iff.
    split.
    + intros [Hle Hm].
      destruct (decide (rank_of m0 = rank_of m)) as [E%rank_of_inj|E]; [|lia].
      right. split; [done|]. subst m0.
      destruct (once m) eqn:Ho; [|done].
      rewrite (Hh m eq_refl Ho) in Hm. done.
    + intros [Hlt|[-> Ho]].
      * split; [lia|]. destruct (has m o); [|done]. specialize (Hhas eq_refl). lia.
      * split; [lia|]. by apply has_not_once.
  - change (rank JNull) with (-1)%Z in *. split; [done|]. intros _.
    split; [lia|]. destruct (has m o); [|done]. specialize (Hhas eq_refl). lia.
Qed.

(** A chain of calls returns exactly when the fragments it adds form a
    valid sequence after the last part of the object. *)
Lemma chain_valid ops : ∀ this (h : heap) o last,
  h !! this = Some o → node_inv o → lastAdded o = last_value last →
  (∀ m0, last = Some m0 → once m0 = true → has m0 o = true) →
  (∃ h', chain this ops h = (Ok this, h')) ↔ valid_after last ops = true.
Proof.
  induction ops as [|[m v] ops IH]; intros this h o last Eo Hinv Hl Hh.
  - simpl. split; [done|]. intros _. by exists h.
  - cbn [chain valid_after]. unfold mbind, M_bind.
    rewrite (call_run h this o) by done.
    rewrite andb_true_iff, <- (refusal_valid o last m) by done.
    destruct (refusal m o) eqn:Hacc.
    + split; [by intros [h' ?] | by intros [? _]].
    + rewrite (IH this _ (added m v o) (Some m)).
      * split; [by split | by intros [_ ?]].
      * by eapply lookup_stored.
      * by apply node_inv_added.
      * done.
      * intros m0 [= <-] Ho. by apply has_added_same.
Qed.

(** A facade call followed by a chain of calls returns exactly when the
    fragments form a valid sequence. *)
Lemma build_valid m v ops (h : heap) :
  (∃ h', build m v ops h = (Ok (length h), h'))
    ↔ valid (seed m v ++ ops) = true.
Proof.
  unfold build. rewrite (bind_ok _ _ _ _ _ (create_run h m v)).
  rewrite (chain_valid ops (length h) _ (created m v)
             (if nullish v then None else Some m)).
  - unfold valid, seed. destruct (nullish v); [done|].
    cbn [app valid_after]. by rewrite andb_true_l.
  - apply lookup_fresh.
  - apply node_inv_created.
  - unfold created. by destruct (nullish v).
  - unfold created. destruct (nullish v); [done|].
    intros m0 [= <-] Ho. by apply has_added_same.
Qed.

(** What a successful build leaves: a simple selector that stores the
    fragments by kind, in insertion order. *)
Lemma build_parts m v ops (h : heap) l h' :
  build m v ops h = (Ok l, h') →
  l = length h ∧ ∃ o, h' !! l = Some o ∧ simple o ∧
    ∀ m', default [] (parts o !! type_of m') = values_of m' (seed m v ++ ops).
Proof.
  unfold build. rewrite (bind_ok _ _ _ _ _ (create_run h m v)). intros E.
  destruct (chain_parts ops _ _ _ _ _ (lookup_fresh h (created m v)) E)
    as (-> & o' & Eo' & Hc & Hp).
  split; [done|]. exists o'. split; [done|]. split.
  - unfold simple. rewrite Hc. unfold created. by destruct (nullish v).
  - intros m'. by rewrite Hp, created_parts, values_of_app.
Qed.

(** C3.  For every valid sequence of fragment additions, that is a facade
    call followed by method calls whose kinds never decrease in rank and
    repeat only for class, attr and pseudoClass, the build succeeds and
    yields a simple selector that stores the values of each kind in
    insertion order; [stringify] on it returns, for each kind in the order
    element, id, class, attr, pseudoClass, pseudoElement, each stored value
    in insertion order decorated with the kind's prefix and suffix, all
    concatenated without separator. *)
Theorem stringify_built m v ops (h : heap) :
  valid (seed m v ++ ops) = true →
  ∃ l h' o,
    build m v ops h = (Ok l, h')
    ∧ h' !! l = Some o ∧ simple o
    ∧ (∀ m', default [] (parts o !! type_of m')
             = values_of m' (seed m v ++ ops))
    ∧ CssSelector.stringify h' l = Some (spec_stringify_parts (parts o))
    ∧ CssSelector.stringify h' l = Some (spec_stringify (seed m v ++ ops)).
Proof.
  intros [h' E]%(build_valid m v ops h).
  destruct (build_parts m v ops h _ h' E) as (_ & o & Eo & Hs & Hp).
  exists (length h), h', o.
  rewrite (stringify_simple _ _ _ Eo Hs).
  repeat split; try done.
  unfold spec_stringify_parts, spec_stringify. do 2 f_equal.
  apply list_fmap_ext. intros _ m' _. by rewrite Hp.
Qed.

(** [element('a').attr('href$=.png').pseudoClass('focus')] *)
Lemma stringify_built_witness :
  valid (seed Element (JString "a") ++
         [(Attr, JString "href$=.png"); (PseudoClass, JString "focus")]) = true
  ∧ ∃ l h' o,
      build Element (JString "a")
        [(Attr, JString "href$=.png"); (PseudoClass, JString "focus")] []
        = (Ok l, h')
      ∧ h' !! l = Some o ∧ simple o
      ∧ (∀ m', default [] (parts o !! type_of m')
               = values_of m'
                   (seed Element (JString "a") ++
                    [(Attr, JString "href$=.png");
                     (PseudoClass, JString "focus")]))
      ∧ CssSelector.stringify h' l = Some (spec_stringify_parts (parts o))
      ∧ CssSelector.stringify h' l =
          Some (spec_stringify
                  (seed Element (JString "a") ++
                   [(Attr, JString "href$=.png");
                    (PseudoClass, JString "focus")])).
Proof.
  split; [reflexivity|].
  exact (stringify_built Element (JString "a")
           [(Attr, JString "href$=.png"); (PseudoClass, JString "focus")] []
           eq_refl).
Defined.

(** C8.  The two concrete scenarios of the specification. *)
Theorem concrete_scenarios :
  stringify_of div_plus_table = Some "div#main + table#data"
  ∧ stringify_of main_container_editable = Some "#main.container.editable".
Proof. split; vm_compute; reflexivity. Qed.

(** ** Repeatable kinds *)

(** Under the invariant, no part ranks above the one added last. *)
Lemma no_later_part o m m' :
  node_inv o → (rank (lastAdded o) ≤ rank_of m)%Z → (rank_of m < rank_of m')%Z →
  parts o !! type_of m' = None.
Proof.
  intros [Hp _] Hle Hlt.
  destruct (parts o !! type_of m') as [vs|] eqn:E; [|done].
  destruct (Hp _ _ E) as [_ (m'' & Heq & Hm'')].
  apply type_of_inj in Heq as <-. lia.
Qed.

(** Where [m] passes the order check, the text of the value it adds comes
    last in the serialisation. *)
Lemma spec_stringify_parts_push o m v :
  node_inv o → (rank (lastAdded o) ≤ rank_of m)%Z →
  spec_stringify_parts (push (type_of m) v (parts o)) =
    spec_stringify_parts (parts o) +:+ decorate m v.
Proof.
  intros Hinv Hle.
  pose proof (λ m' H, no_later_part o m m' Hinv Hle H) as Hlater.
  unfold spec_stringify_parts, canonical. cbn [fmap list_fmap joined foldr].
  destruct m;
    rewrite lookup_push_same, !lookup_push_other by (by vm_compute);
    rewrite ?(Hlater Id), ?(Hlater Class), ?(Hlater Attr),
      ?(Hlater PseudoClass), ?(Hlater PseudoElement) by (by vm_compute);
    cbn [default from_option]; unfold id;
    rewrite segment_snoc, ?segment_nil, ?append_nil_r;
    by rewrite ?append_assoc.
Qed.

(** C6, for simple selectors that admit the kind.  On a simple selector of
    a reachable store whose last-added kind does not rank above [class]
    (respectively [attr], [pseudoClass]), any number of consecutive calls of
    that method all succeed, and [stringify] then returns what it returned
    before followed by the decorated values in the order of the calls. *)
Theorem repeated_calls_append (h : heap) this o m vs :
  reachable h → h !! this = Some o → simple o → once m = false →
  (rank (lastAdded o) ≤ rank_of m)%Z →
  ∃ h' s, chain this ((λ v, (m, v)) <$> vs) h = (Ok this, h')
    ∧ CssSelector.stringify h this = Some s
    ∧ CssSelector.stringify h' this = Some (s +:+ segment m vs).
Proof.
  intros Hr%reachable_inv. revert h o Hr.
  induction vs as [|v vs IH]; intros h o Hinv Eo Hs Hm Hle.
  - exists h, (spec_stringify_parts (parts o)).
    split; [done|]. rewrite (stringify_simple h this o) by done.
    by rewrite segment_nil, append_nil_r.
  - assert (Hacc : refusal m o = None).
    { apply refusal_None. split; [done | by destruct m]. }
    assert (Hst : <[this := added m v o]> h !! this = Some (added m v o))
      by (by eapply lookup_stored).
    destruct (IH (<[this := added m v o]> h) (added m v o)) as (h' & s & E & E1 & E2).
    + eapply heap_inv_insert; try done.
      apply node_inv_added; [by apply (Hinv this)|done].
    + done.
    + done.
    + done.
    + cbn [added lastAdded]. fold (rank_of m). lia.
    + exists h', (spec_stringify_parts (parts o)).
      split; [|split].
      * cbn [fmap list_fmap chain]. unfold mbind, M_bind.
        rewrite (call_run h this o), Hacc by done. exact E.
      * by apply stringify_simple.
      * rewrite E2. rewrite (stringify_simple _ this (added m v o)) in E1 by done.
        injection E1 as <-. cbn [added parts].
        rewrite spec_stringify_parts_push by (done || by apply (Hinv this)).
        change (segment m (v :: vs)) with (decorate m v +:+ segment m vs).
        by rewrite append_assoc.
Qed.

(** [id('main').class('container').class('editable')] *)
Lemma repeated_calls_append_witness :
  ∃ o, main_only !! 0 = Some o
    ∧ reachable main_only ∧ simple o ∧ once Class = false
    ∧ (rank (lastAdded o) ≤ rank_of Class)%Z
    ∧ ∃ h' s,
        chain 0 ((λ v, (Class, v)) <$> [JString "container"; JString "editable"])
          main_only = (Ok 0, h')
        ∧ CssSelector.stringify main_only 0 = Some s
        ∧ CssSelector.stringify h' 0 =
            Some (s +:+ segment Class [JString "container"; JString "editable"]).
Proof.
  exists (default CssSelector.empty (main_only !! 0)).
  assert (Hr : reachable main_only) by (apply reachable_build, reach_nil).
  assert (Ho : main_only !! 0 = Some (default CssSelector.empty (main_only !! 0)))
    by (vm_compute; reflexivity).
  assert (Hs : simple (default CssSelector.empty (main_only !! 0)))
    by (vm_compute; reflexivity).
  assert (Hle : (rank (lastAdded (default CssSelector.empty
                                    (main_only !! 0%nat)))
                 ≤ rank_of Class)%Z)
    by (apply (proj1 (Z.leb_le _ _)); vm_compute; reflexivity).
  split; [exact Ho|]. split; [exact Hr|]. split; [exact Hs|].
  split; [reflexivity|]. split; [exact Hle|].
  exact (repeated_calls_append main_only 0 _ Class
           [JString "container"; JString "editable"] Hr Ho Hs eq_refl Hle).
Defined.

(** Two selectors on which a [class] call adds nothing to the output.  On
    [pseudoElement('after')] the very first [class] call is refused by the
    order check.  On the combined selector [combine(element('a'), ' ',
    element('b'))] the call [class('x')] succeeds, yet [stringify] ignores
    the parts of a combined selector and returns what it did before. *)
Lemma class_refused_or_unseen :
  fst (chain 0 ((λ v, (Class, v)) <$> [JString "a"]) after)
    = Throw OrderViolationError
  ∧ fst (chain 2 ((λ v, (Class, v)) <$> [JString "x"]) a_b) = Ok 2
  ∧ CssSelector.stringify
      (snd (chain 2 ((λ v, (Class, v)) <$> [JString "x"]) a_b)) 2
    = Some "a   b".
Proof. repeat split; vm_compute; reflexivity. Qed.

(** ** The facade *)

(** C7, for values that the constructor stores.  For every value other
    than [null] and [undefined], each of the six entry points of the facade
    creates a new object, at a location bound to nothing before, that is a
    simple selector holding exactly one part, of the entry point's kind and
    with the given value, and whose [lastAdded] is that kind; it changes no
    other object, and no later facade call returns the same location. *)
Theorem create_seeds_one_part (h : heap) m v :
  nullish v = false →
  ∃ o, create m v h = (Ok (length h), h ++ [o])
    ∧ h !! length h = None
    ∧ parts o = {[ type_of m := [v] ]}
    ∧ lastAdded o = JString (type_of m)
    ∧ simple o
    ∧ (∀ m', has m' o = if decide (m' = m) then once m else false)
    ∧ ∀ (h2 : heap) m2 v2,
        (length (h ++ [o]) ≤ length h2)%nat →
        fst (create m2 v2 h2) ≠ Ok (length h).
Proof.
  intros Hv. exists (created m v). rewrite create_run.
  unfold created. rewrite Hv.
  split; [done|]. split; [by apply lookup_ge_None_2|].
  split; [|split; [done|split; [done|split]]].
  - cbn [added parts CssSelector.empty]. unfold push.
    by rewrite lookup_empty, insert_empty.
  - intros m'. by destruct m, m'.
  - intros h2 m2 v2 Hlen. rewrite create_run. simpl. intros [= E].
    rewrite length_app in Hlen. simpl in Hlen. lia.
Qed.

(** [element('div')] in the empty store. *)
Lemma create_seeds_one_part_witness :
  nullish (JString "div") = false
  ∧ ∃ o, create Element (JString "div") [] = (Ok (length ([] : heap)), [] ++ [o])
    ∧ ([] : heap) !! length ([] : heap) = None
    ∧ parts o = {[ type_of Element := [JString "div"] ]}
    ∧ lastAdded o = JString (type_of Element)
    ∧ simple o
    ∧ (∀ m', has m' o = if decide (m' = Element) then once Element else false)
    ∧ ∀ (h2 : heap) m2 v2,
        (length ([] ++ [o]) ≤ length h2)%nat →
        fst (create m2 v2 h2) ≠ Ok (length ([] : heap)).
Proof.
  split; [reflexivity|].
  exact (create_seeds_one_part [] Element (JString "div") eq_refl).
Defined.

(** [element(null)] creates a selector that holds no part at all and whose
    [lastAdded] is [null]; so does [element(undefined)], whose argument
    takes the constructor's default. *)
Lemma create_null_stores_nothing :
  ∃ o, create Element JNull [] = (Ok 0, [o])
    ∧ create Element JUndefined [] = (Ok 0, [o])
    ∧ parts o = ∅
    ∧ parts o !! "element" = None
    ∧ lastAdded o = JNull.
Proof. exists CssSelector.empty. repeat split. Qed.

(** The store never shrinks, so a later call finds it at least as long. *)
Lemma length_call (h : heap) m this v :
  length (snd (call m this v h)) = length h.
Proof.
  destruct (h !! this) as [o|] eqn:Eo.
  - rewrite (call_run h this o) by done.
    destruct (refusal m o); [done|]. simpl. by rewrite length_insert.
  - by rewrite call_dangling.
Qed.

Lemma length_create (h : heap) m v :
  length (snd (create m v h)) = S (length h).
Proof. rewrite create_run. simpl. rewrite length_app. simpl. lia. Qed.

Lemma length_combine (h : heap) l1 c l2 :
  length (snd (cssSelectorBuilder.combine l1 c l2 h)) = S (length h).
Proof. rewrite combine_run. simpl. rewrite length_app. simpl. lia. Qed.

(** ** Combined selectors *)

(** Creating an object does not change what [stringify] returns on the
    objects that were there. *)
Lemma stringify_snoc h o :
  heap_inv h → heap_inv (h ++ [o]) →
  ∀ l, l < length h →
    CssSelector.stringify (h ++ [o]) l = CssSelector.stringify h l.
Proof.
  intros Hinv Hinv' l. induction (lt_wf l) as [l _ IH]. intros Hl.
  destruct (lookup_lt_is_Some_2 h l Hl) as [ol Eo].
  rewrite (stringify_unfold h l ol Hinv Eo).
  rewrite (stringify_unfold (h ++ [o]) l ol Hinv')
    by (by apply lookup_app_l_Some).
  destruct (combined ol) as [c|] eqn:Ec; [|done].
  destruct (Hinv l ol Eo) as [_ Hc]. destruct (Hc c Ec) as [H1 H2].
  rewrite (IH _ H1), (IH _ H2) by lia. done.
Qed.

(** What [combine] creates and what [stringify] returns on it. *)
Lemma combine_stringify h A t B :
  heap_inv h → A < length h → B < length h →
  heap_inv (h ++ [joint A t B]) ∧
  ∃ sA sB,
    CssSelector.stringify h A = Some sA
    ∧ CssSelector.stringify h B = Some sB
    ∧ CssSelector.stringify (h ++ [joint A t B]) A = Some sA
    ∧ CssSelector.stringify (h ++ [joint A t B]) B = Some sB
    ∧ CssSelector.stringify (h ++ [joint A t B]) (length h) =
        Some (sA +:+ " " +:+ ToString t +:+ " " +:+ sB).
Proof.
  intros Hinv HA HB.
  assert (Hinv' : heap_inv (h ++ [joint A t B])).
  { apply heap_inv_snoc; [done|apply node_inv_joint|]. by intros c [= <-]. }
  split; [done|].
  destruct (stringify_total h Hinv A HA) as [sA EA].
  destruct (stringify_total h Hinv B HB) as [sB EB].
  exists sA, sB. split; [done|]. split; [done|].
  pose proof (stringify_snoc h (joint A t B) Hinv Hinv') as Hsn.
  split; [by rewrite Hsn|]. split; [by rewrite Hsn|].
  rewrite (stringify_unfold _ _ _ Hinv' (lookup_fresh h (joint A t B))).
  cbn [joint combined selector1 selector2 combinator].
  rewrite !Hsn, EA, EB by done. done.
Qed.

(** C4.  In a reachable store, for any two selectors [A] and [B], simple or
    combined, and any of the four accepted tokens, [combine(A, t, B)]
    returns a selector on which [stringify] returns the string of [A], one
    space, the token, one space, the string of [B]; the strings of [A] and
    [B] are what they were before the call. *)
Theorem combine_accepted_token (h : heap) A tok B :
  reachable h → A < length h → B < length h → accepted (JString tok) →
  ∃ C h' sA sB,
    cssSelectorBuilder.combine A (JString tok) B h = (Ok C, h')
    ∧ CssSelector.stringify h A = Some sA
    ∧ CssSelector.stringify h B = Some sB
    ∧ CssSelector.stringify h' A = Some sA
    ∧ CssSelector.stringify h' B = Some sB
    ∧ CssSelector.stringify h' C = Some (sA +:+ " " +:+ tok +:+ " " +:+ sB).
Proof.
  intros Hr%reachable_inv HA HB _.
  destruct (combine_stringify h A (JString tok) B Hr HA HB)
    as (_ & sA & sB & E1 & E2 & E3 & E4 & E5).
  exists (length h), (h ++ [joint A (JString tok) B]), sA, sB.
  by rewrite combine_run.
Qed.

(** [combine(element('div').id('main'), '+', element('table').id('data'))] *)
Lemma combine_accepted_token_witness :
  reachable div_and_table ∧ 0 < length div_and_table
  ∧ 1 < length div_and_table ∧ accepted (JString "+")
  ∧ ∃ C h' sA sB,
      cssSelectorBuilder.combine 0 (JString "+") 1 div_and_table = (Ok C, h')
      ∧ CssSelector.stringify div_and_table 0 = Some sA
      ∧ CssSelector.stringify div_and_table 1 = Some sB
      ∧ CssSelector.stringify h' 0 = Some sA
      ∧ CssSelector.stringify h' 1 = Some sB
      ∧ CssSelector.stringify h' C = Some (sA +:+ " " +:+ "+" +:+ " " +:+ sB).
Proof.
  assert (Hr : reachable div_and_table)
    by (do 2 apply reachable_build; apply reach_nil).
  assert (H0 : 0 < length div_and_table) by (vm_compute; lia).
  assert (H1 : 1 < length div_and_table) by (vm_compute; lia).
  assert (Ha : accepted (JString "+")) by (right; by left).
  split; [exact Hr|]. split; [exact H0|]. split; [exact H1|].
  split; [exact Ha|].
  exact (combine_accepted_token div_and_table 0 "+" 1 Hr H0 H1 Ha).
Defined.

(** ** [combine] and [stringify] on symbols and other tokens *)


(** The object [combine] creates. *)
Lemma any_combine_run (w : list AnyToken.CssSelector) A t B :
  AnyToken.combine A t B w =
    (Ok (length w),
     w ++ [AnyToken.mkCssSelector ∅ false false false JNull
             (Some (AnyToken.mkCombination A t B))]).
Proof.
  unfold AnyToken.combine. f_equal.
  rewrite alter_app_r_alt by done. by rewrite Nat.sub_diag.
Qed.




Lemma sides_first_snoc w o :
  sides_first w →
  (∀ c, AnyToken.combined o = Some c →
     AnyToken.selector1 c < length w ∧ AnyToken.selector2 c < length w) →
  sides_first (w ++ [o]).
Proof.
  intros Hinv Hc l o' c E Ec.
  apply lookup_app_Some in E as [E|[Hl E]]; [by eapply Hinv|].
  apply list_lookup_singleton_Some in E as [Hz <-].
  destruct (Hc c Ec). lia.
Qed.

(** [combine] on two selectors of the store keeps the order of
    creation. *)
Lemma sides_first_combine w A t B :
  sides_first w → A < length w → B < length w →
  sides_first (snd (AnyToken.combine A t B w)).
Proof.
  intros Hinv HA HB. rewrite any_combine_run. cbn [snd].
  apply sides_first_snoc; [done|]. by intros c [= <-].
Qed.



Lemma stringify_fuel_widen (h : heap) : ∀ fuel l,
  AnyToken.stringify_fuel fuel (widen <$> h) l
    = AnyToken.Returns <$> CssSelector.stringify_fuel fuel h l.
Proof.
  induction fuel as [|fuel IH]; intros l; [done|].
  cbn [AnyToken.stringify_fuel CssSelector.stringify_fuel].
  rewrite list_lookup_fmap.
  destruct (h !! l) as [o|]; [|done]. cbn [fmap option_fmap option_map mbind option_bind].
  unfold widen at 1. cbn [AnyToken.combined AnyToken.parts].
  destruct (combined o) as [c|]; [|done].
  cbn [fmap option_fmap option_map AnyToken.selector1 AnyToken.selector2
         AnyToken.combinator AnyToken.ToString].
  rewrite !IH.
  destruct (CssSelector.stringify_fuel fuel h (selector1 c)); [|done].
  cbn [fmap option_fmap option_map mbind option_bind].
  by destruct (CssSelector.stringify_fuel fuel h (selector2 c)).
Qed.

Lemma stringify_widen (h : heap) l :
  AnyToken.stringify (widen <$> h) l
    = AnyToken.Returns <$> CssSelector.stringify h l.
Proof.
  unfold AnyToken.stringify, CssSelector.stringify.
  rewrite length_fmap. apply stringify_fuel_widen.
Qed.

(** On a token that has a string conversion, [combine] is the [combine]
    of the builder. *)
Lemma combine_widen (h : heap) A (t : value) B :
  AnyToken.combine A (AnyToken.Primitive t) B (widen <$> h) =
    (fst (cssSelectorBuilder.combine A t B h),
     widen <$> snd (cssSelectorBuilder.combine A t B h)).
Proof.
  rewrite any_combine_run, combine_run. cbn [fst snd].
  by rewrite length_fmap, fmap_app.
Qed.





(** ** A combined selector refers to its sides *)

(** An added value lengthens the text of a simple selector by its
    decorated text, wherever the text goes. *)
Lemma length_spec_stringify_parts_push m v (p : gmap string (list value)) :
  String.length (spec_stringify_parts (push (type_of m) v p)) =
    String.length (spec_stringify_parts p) + String.length (decorate m v).
Proof.
  unfold spec_stringify_parts, canonical. cbn [fmap list_fmap joined foldr].
  destruct m;
    rewrite lookup_push_same, !lookup_push_other by (by vm_compute);
    cbn [default from_option]; unfold id;
    rewrite segment_snoc, !length_append; lia.
Qed.

(** After an accepted call on a simple selector, [stringify] still returns
    on every selector, and never a shorter string; on the selector that was
    called it returns a string longer by the decorated value. *)
Lemma stringify_after_call h side o m v :
  heap_inv h → h !! side = Some o → simple o → refusal m o = None →
  ∀ x, x < length h →
    ∃ s s',
      CssSelector.stringify h x = Some s
      ∧ CssSelector.stringify (<[side := added m v o]> h) x = Some s'
      ∧ (String.length s ≤ String.length s')%nat
      ∧ (x = side →
         String.length s' = String.length s + String.length (decorate m v)).
Proof.
  intros Hinv Eo Hs Hacc.
  assert (Hinv' : heap_inv (<[side := added m v o]> h)).
  { eapply heap_inv_insert; try done.
    apply node_inv_added; [by apply (Hinv side)|done]. }
  intros x. induction (lt_wf x) as [x _ IH]. intros Hx.
  destruct (decide (x = side)) as [->|Hne].
  - rewrite (stringify_simple h side o) by done.
    rewrite (stringify_simple _ side (added m v o))
      by (done || by eapply lookup_stored).
    eexists _, _. split; [done|]. split; [done|].
    cbn [added parts]. rewrite length_spec_stringify_parts_push.
    split; [lia|done].
  - destruct (lookup_lt_is_Some_2 h x Hx) as [ox Ex].
    assert (Ex' : <[side := added m v o]> h !! x = Some ox)
      by (by rewrite list_lookup_insert_ne).
    rewrite (stringify_unfold h x ox Hinv Ex).
    rewrite (stringify_unfold _ x ox Hinv' Ex').
    destruct (combined ox) as [c|] eqn:Ec.
    + destruct (Hinv x ox Ex) as [_ Hc]. destruct (Hc c Ec) as [H1 H2].
      destruct (IH _ H1) as (s1 & s1' & E1 & E1' & Hl1 & _); [lia|].
      destruct (IH _ H2) as (s2 & s2' & E2 & E2' & Hl2 & _); [lia|].
      rewrite E1, E1', E2, E2'. simpl.
      eexists _, _. split; [done|]. split; [done|].
      split; [|done]. rewrite !length_append. lia.
    + eexists _, _. split; [done|]. split; [done|]. split; [lia|done].
Qed.

(** C10, for simple sides and non-empty text.  A combined selector refers
    to its sides.  Let [C] be any combined selector of a reachable store,
    made from [A], [t] and [B] at any earlier time.  A fragment with
    non-empty decorated text that is successfully added to a side that is a
    simple selector changes what [C.stringify()] returns: the result is
    again the string that [A.stringify()] now returns, a space, the token,
    a space, and the string that [B.stringify()] now returns. *)
Theorem combined_follows_sides (h h2 : heap) C oC A t B side o m v l :
  reachable h →
  h !! C = Some oC → combined oC = Some (mkCombination A t B) →
  side = A ∨ side = B →
  h !! side = Some o → simple o → decorate m v ≠ "" →
  call m side v h = (Ok l, h2) →
  ∃ sA sB,
    CssSelector.stringify h2 A = Some sA
    ∧ CssSelector.stringify h2 B = Some sB
    ∧ CssSelector.stringify h2 C =
        Some (sA +:+ " " +:+ ToString t +:+ " " +:+ sB)
    ∧ CssSelector.stringify h2 C ≠ CssSelector.stringify h C.
Proof.
  intros Hinv%reachable_inv EC Ecomb Hside Eo Hs Hdec Ecall.
  destruct (Hinv C oC EC) as [_ Hc].
  destruct (Hc _ Ecomb) as [HA HB]. cbn [selector1 selector2] in HA, HB.
  pose proof (lookup_lt_Some _ _ _ EC) as HC.
  rewrite (call_run h side o) in Ecall by done.
  destruct (refusal m o) eqn:Hacc; [done|]. injection Ecall as <- <-.
  assert (Hinv2 : heap_inv (<[side := added m v o]> h)).
  { eapply heap_inv_insert; try done.
    apply node_inv_added; [by apply (Hinv side)|done]. }
  pose proof (stringify_after_call h side o m v Hinv Eo Hs Hacc) as Hafter.
  destruct (Hafter A) as (sA & sA' & EA & EA' & HlA & HsA); [lia|].
  destruct (Hafter B) as (sB & sB' & EB & EB' & HlB & HsB); [lia|].
  assert (Hne : side ≠ C) by (destruct Hside; lia).
  assert (E0 : CssSelector.stringify h C =
               Some (sA +:+ " " +:+ ToString t +:+ " " +:+ sB)).
  { rewrite (stringify_unfold h C oC Hinv EC), Ecomb.
    cbn [selector1 selector2 combinator]. by rewrite EA, EB. }
  assert (E2 : CssSelector.stringify (<[side := added m v o]> h) C =
               Some (sA' +:+ " " +:+ ToString t +:+ " " +:+ sB')).
  { rewrite (stringify_unfold _ C oC Hinv2)
      by (by rewrite list_lookup_insert_ne).
    rewrite Ecomb. cbn [selector1 selector2 combinator].
    by rewrite EA', EB'. }
  exists sA', sB'. split; [done|]. split; [done|]. split; [done|].
  rewrite E0, E2. intros [= E].
  apply (f_equal String.length) in E. rewrite !length_append in E.
  assert (0 < String.length (decorate m v)).
  { destruct (decorate m v); [done | simpl; lia]. }
  destruct Hside as [->| ->];
    [specialize (HsA eq_refl)|specialize (HsB eq_refl)]; lia.
Qed.

(** [C = combine(element('a'), ' ', element('b'))], then
    [combine(C, '+', element('c'))], and only then [a.class('x')] on the
    left side of [C]: [C] is neither the newest object nor the outermost
    selector. *)
Lemma combined_follows_sides_witness :
  ∃ oC o,
    reachable ab_plus_c
    ∧ ab_plus_c !! 2 = Some oC
    ∧ combined oC = Some (mkCombination 0 (JString " ") 1)
    ∧ (0 = 0 ∨ 0 = 1)
    ∧ ab_plus_c !! 0 = Some o ∧ simple o
    ∧ decorate Class (JString "x") ≠ ""
    ∧ call Class 0 (JString "x") ab_plus_c
        = (Ok 0, snd (call Class 0 (JString "x") ab_plus_c))
    ∧ ∃ sA sB,
        CssSelector.stringify
          (snd (call Class 0 (JString "x") ab_plus_c)) 0 = Some sA
        ∧ CssSelector.stringify
            (snd (call Class 0 (JString "x") ab_plus_c)) 1 = Some sB
        ∧ CssSelector.stringify
            (snd (call Class 0 (JString "x") ab_plus_c)) 2
          = Some (sA +:+ " " +:+ ToString (JString " ") +:+ " " +:+ sB)
        ∧ CssSelector.stringify
            (snd (call Class 0 (JString "x") ab_plus_c)) 2
          ≠ CssSelector.stringify ab_plus_c 2.
Proof.
  exists (default CssSelector.empty (ab_plus_c !! 2)),
    (default CssSelector.empty (ab_plus_c !! 0)).
  assert (Hr : reachable ab_plus_c).
  { assert (E : snd (cssSelectorBuilder.combine 2 (JString "+") 3
                       (snd (build Element (JString "c") []
                          (snd (cssSelectorBuilder.combine 0 (JString " ") 1
                             (snd (build Element (JString "b") []
                                (snd (build Element (JString "a") [] [])))))))))
                = ab_plus_c) by (vm_compute; reflexivity).
    rewrite <- E.
    apply reach_combine; [|vm_compute; lia..].
    apply reachable_build.
    apply reach_combine; [|vm_compute; lia..].
    do 2 apply reachable_build. apply reach_nil. }
  assert (EC : ab_plus_c !! 2
               = Some (default CssSelector.empty (ab_plus_c !! 2)))
    by (vm_compute; reflexivity).
  assert (Ec : combined (default CssSelector.empty (ab_plus_c !! 2))
               = Some (mkCombination 0 (JString " ") 1))
    by (vm_compute; reflexivity).
  assert (Eo : ab_plus_c !! 0
               = Some (default CssSelector.empty (ab_plus_c !! 0)))
    by (vm_compute; reflexivity).
  assert (Hs : simple (default CssSelector.empty (ab_plus_c !! 0)))
    by (vm_compute; reflexivity).
  assert (Hd : decorate Class (JString "x") ≠ "") by done.
  assert (Ecall : call Class 0 (JString "x") ab_plus_c
            = (Ok 0, snd (call Class 0 (JString "x") ab_plus_c)))
    by (vm_compute; reflexivity).
  split; [exact Hr|]. split; [exact EC|]. split; [exact Ec|].
  split; [by left|]. split; [exact Eo|]. split; [exact Hs|].
  split; [exact Hd|]. split; [exact Ecall|].
  exact (combined_follows_sides ab_plus_c _ 2 _ 0 (JString " ") 1 0 _
           Class (JString "x") 0
           Hr EC Ec (or_introl eq_refl) Eo Hs Hd Ecall).
Defined.

(** Two successful additions that [C.stringify()] does not show.  In the
    first, the left side of [C] is itself a combined selector: [class('x')]
    on it succeeds, but [stringify] ignores the parts of a combined
    selector.  In the second, the left side is the empty simple selector
    that [element(null)] creates: [element('')] on it succeeds and adds the
    empty text. *)
Lemma additions_not_shown :
  (fst (call Class 2 (JString "x") ab_plus_c) = Ok 2
   ∧ CssSelector.stringify ab_plus_c 4 = Some "a   b + c"
   ∧ CssSelector.stringify (snd (call Class 2 (JString "x") ab_plus_c)) 4
       = Some "a   b + c")
  ∧ (fst (call Element 0 (JString "") null_gt_b) = Ok 0
     ∧ CssSelector.stringify null_gt_b 2 = Some " > b"
     ∧ CssSelector.stringify (snd (call Element 0 (JString "") null_gt_b)) 2
         = Some " > b").
Proof. repeat split; vm_compute; reflexivity. Qed.

(** * Further properties of the builder *)

(** ** Invariants of reachable stores *)

Lemma part_inv_empty : part_inv CssSelector.empty.
Proof.
  split.
  - intros m vs _ E. simpl in E. by rewrite lookup_empty in E.
  - by left.
Qed.

Lemma part_inv_joint l1 c l2 : part_inv (joint l1 c l2).
Proof.
  split.
  - intros m vs _ E. simpl in E. by rewrite lookup_empty in E.
  - by left.
Qed.

Lemma part_inv_added m v o :
  node_inv o → part_inv o → refusal m o = None → part_inv (added m v o).
Proof.
  intros [Hp Hf] [Hs Hl] [Hr Hh]%refusal_None. split.
  - intros m' vs Hm'. cbn [added parts].
    destruct (decide (m = m')) as [<-|Hne].
    + rewrite lookup_push_same. intros [= <-].
      destruct (parts o !! type_of m) as [ws|] eqn:E; [|by exists v].
      assert (has m o = true) by (apply Hf; [done | by exists ws]).
      congruence.
    + rewrite lookup_push_other by (by intros ?%type_of_inj). by apply Hs.
  - right. exists m. cbn [added parts lastAdded].
    split; [done|]. rewrite lookup_push_same. by eexists.
Qed.

Lemma part_inv_created m v : part_inv (created m v).
Proof.
  unfold created. destruct (nullish v); [apply part_inv_empty|].
  apply part_inv_added; [apply node_inv_empty|apply part_inv_empty|].
  apply refusal_None. simpl. split; [|by destruct m].
  pose proof (rank_of_nonneg m). change (rank JNull) with (-1)%Z. lia.
Qed.

Lemma reachable_part_inv h :
  reachable h → ∀ l o, h !! l = Some o → part_inv o.
Proof.
  induction 1 as [|h m v Hr IH|h m this v Hr IH|h l1 c l2 Hr IH H1 H2
                  |h l1 c l2 Hr IH H1 H2]; intros l o.
  - by rewrite lookup_nil.
  - rewrite create_run. simpl.
    intros [E|[_ E]]%lookup_app_Some; [by eapply IH|].
    apply list_lookup_singleton_Some in E as [_ <-]. apply part_inv_created.
  - destruct (h !! this) as [o'|] eqn:Eo.
    + rewrite (call_run h this o') by done.
      destruct (refusal m o') eqn:Er; simpl; [by apply IH|].
      intros [(-> & <- & _)|[_ E]]%list_lookup_insert_Some; [|by eapply IH].
      apply part_inv_added; [|by eapply IH|done].
      by apply (reachable_inv h Hr l).
    + rewrite call_dangling by done. by apply IH.
  - rewrite combine_run. simpl.
    intros [E|[_ E]]%lookup_app_Some; [by eapply IH|].
    apply list_lookup_singleton_Some in E as [_ <-]. apply part_inv_joint.
  - rewrite method_combine_run. simpl.
    intros [E|[_ E]]%lookup_app_Some; [by eapply IH|].
    apply list_lookup_singleton_Some in E as [_ <-]. apply part_inv_joint.
Qed.

(** X1.  Whatever sequence of facade and method calls produced the store,
    and whichever of them threw, an [element], [id] or [pseudoElement]
    array that is stored holds exactly one value. *)
Theorem singleton_parts_hold_one (h : heap) l o m vs :
  reachable h → h !! l = Some o → once m = true →
  parts o !! type_of m = Some vs →
  ∃ v, vs = [v].
Proof.
  intros Hr Eo Hm Hp.
  by apply (inv_single o (reachable_part_inv h Hr l o Eo) m vs).
Qed.

Lemma singleton_parts_hold_one_witness :
  ∃ o vs, reachable div_main ∧ div_main !! 0 = Some o ∧ once Id = true
    ∧ parts o !! type_of Id = Some vs
    ∧ ∃ v, vs = [v].
Proof.
  exists (default CssSelector.empty (div_main !! 0)), [JString "main"].
  assert (Hr : reachable div_main) by (apply reachable_build, reach_nil).
  assert (Ho : div_main !! 0 = Some (default CssSelector.empty (div_main !! 0)))
    by (vm_compute; reflexivity).
  assert (Hp : parts (default CssSelector.empty (div_main !! 0)) !! type_of Id
               = Some [JString "main"]) by (vm_compute; reflexivity).
  split; [exact Hr|]. split; [exact Ho|]. split; [reflexivity|].
  split; [exact Hp|].
  exact (singleton_parts_hold_one div_main 0 _ Id _ Hr Ho eq_refl Hp).
Defined.

(** X2.  In every reachable store the bookkeeping of an object agrees with
    its parts: each of the three flags is set exactly when the part it
    guards is stored, [lastAdded] is [null] exactly when no part is stored,
    and every stored array belongs to one of the six types and is not
    empty. *)
Theorem bookkeeping_agrees_with_parts (h : heap) l o :
  reachable h → h !! l = Some o →
  (hasElement o = true ↔ is_Some (parts o !! "element"))
  ∧ (hasId o = true ↔ is_Some (parts o !! "id"))
  ∧ (hasPseudoElement o = true ↔ is_Some (parts o !! "pseudoElement"))
  ∧ (lastAdded o = JNull ↔ parts o = ∅)
  ∧ (∀ type vs, parts o !! type = Some vs → type ∈ outputOrder ∧ vs ≠ []).
Proof.
  intros Hr Eo.
  destruct (reachable_inv h Hr l o Eo) as [[Hp Hf] _].
  destruct (reachable_part_inv h Hr l o Eo) as [_ Hl].
  split; [exact (Hf Element eq_refl)|].
  split; [exact (Hf Id eq_refl)|].
  split; [exact (Hf PseudoElement eq_refl)|].
  split.
  - destruct Hl as [[Hn He]|(m & Hm & [vs Hvs])]; [done|].
    split.
    + rewrite Hm. done.
    + intros He. rewrite He, lookup_empty in Hvs. done.
  - intros type vs E. destruct (Hp type vs E) as [Hne (m & -> & _)].
    split; [|done]. apply list_elem_of_In. destruct m; simpl; tauto.
Qed.

Lemma bookkeeping_agrees_with_parts_witness :
  ∃ o, reachable div_main ∧ div_main !! 0 = Some o
    ∧ (hasElement o = true ↔ is_Some (parts o !! "element"))
    ∧ (hasId o = true ↔ is_Some (parts o !! "id"))
    ∧ (hasPseudoElement o = true ↔ is_Some (parts o !! "pseudoElement"))
    ∧ (lastAdded o = JNull ↔ parts o = ∅)
    ∧ (∀ type vs, parts o !! type = Some vs → type ∈ outputOrder ∧ vs ≠ []).
Proof.
  exists (default CssSelector.empty (div_main !! 0)).
  assert (Hr : reachable div_main) by (apply reachable_build, reach_nil).
  assert (Ho : div_main !! 0 = Some (default CssSelector.empty (div_main !! 0)))
    by (vm_compute; reflexivity).
  split; [exact Hr|]. split; [exact Ho|].
  exact (bookkeeping_agrees_with_parts div_main 0 _ Hr Ho).
Defined.

(** ** [stringify] on reachable stores *)

(** X3.  On every selector of a reachable store, simple or combined and
    however deeply nested, [stringify] returns a string: the recursion
    through the sides of combined selectors ends, and any fuel beyond the
    depth of the selector gives the same string. *)
Theorem stringify_returns (h : heap) l :
  reachable h → l < length h →
  ∃ s, CssSelector.stringify h l = Some s
    ∧ ∀ n, l < n → CssSelector.stringify_fuel n h l = Some s.
Proof.
  intros Hr%reachable_inv Hl.
  destruct (stringify_total h Hr l Hl) as [s Es]. exists s.
  split; [done|]. intros n Hn.
  unfold CssSelector.stringify in Es.
  rewrite (stringify_fuel_stable h Hr l n Hn).
  by rewrite <- (stringify_fuel_stable h Hr l (length h) Hl).
Qed.

Lemma stringify_returns_witness :
  reachable a_b ∧ 2 < length a_b
  ∧ ∃ s, CssSelector.stringify a_b 2 = Some s
      ∧ ∀ n, 2 < n → CssSelector.stringify_fuel n a_b 2 = Some s.
Proof.
  assert (Hr : reachable a_b).
  { assert (E : snd (cssSelectorBuilder.combine 0 (JString " ") 1
                       (snd (build Element (JString "b") []
                               (snd (build Element (JString "a") [] [])))))
                = a_b) by (vm_compute; reflexivity).
    rewrite <- E.
    apply reach_combine; [do 2 apply reachable_build; apply reach_nil|..];
      vm_compute; lia. }
  assert (Hl : 2 < length a_b) by (vm_compute; lia).
  split; [exact Hr|]. split; [exact Hl|].
  exact (stringify_returns a_b 2 Hr Hl).
Defined.

(** X4.  Selectors do not share state.  A fragment-adding call, whether it
    returns or throws, leaves every object other than the one it is called
    on as it was and the store as long as it was; so what [stringify]
    returns on any other simple selector does not change. *)
Theorem call_touches_only_this (h : heap) m this v l :
  l ≠ this →
  snd (call m this v h) !! l = h !! l
  ∧ length (snd (call m this v h)) = length h
  ∧ (∀ o, h !! l = Some o → simple o →
       CssSelector.stringify (snd (call m this v h)) l
         = CssSelector.stringify h l).
Proof.
  intros Hne.
  assert (E : snd (call m this v h) !! l = h !! l).
  { destruct (h !! this) as [o|] eqn:Eo.
    - rewrite (call_run h this o) by done.
      destruct (refusal m o); [done|]. simpl.
      by rewrite list_lookup_insert_ne.
    - by rewrite call_dangling. }
  split; [done|]. split; [apply length_call|].
  intros o Eo Hs.
  rewrite (stringify_simple h l o Eo Hs).
  rewrite <- E in Eo. by rewrite (stringify_simple _ l o Eo Hs).
Qed.

Lemma call_touches_only_this_witness :
  1 ≠ 0
  ∧ snd (call Class 0 (JString "x") div_and_table) !! 1 = div_and_table !! 1
  ∧ length (snd (call Class 0 (JString "x") div_and_table))
      = length div_and_table
  ∧ (∀ o, div_and_table !! 1 = Some o → simple o →
       CssSelector.stringify (snd (call Class 0 (JString "x") div_and_table)) 1
         = CssSelector.stringify div_and_table 1).
Proof.
  assert (Hne : 1 ≠ 0) by lia.
  split; [exact Hne|].
  exact (call_touches_only_this div_and_table Class 0 (JString "x") 1 Hne).
Defined.

(** X5.  A facade call followed by a chain of method calls returns exactly
    when the fragments that get stored form a valid sequence: the ranks
    never decrease, and a kind follows itself only if it is class, attr or
    pseudoClass.  Otherwise the chain throws. *)
Theorem build_returns_iff_valid m v ops (h : heap) :
  (∃ l h', build m v ops h = (Ok l, h')) ↔ valid (seed m v ++ ops) = true.
Proof.
  rewrite <- (build_valid m v ops h). split.
  - intros (l & h' & E).
    destruct (build_parts m v ops h l h' E) as [-> _]. by exists h'.
  - intros [h' E]. by exists (length h), h'.
Qed.

(** ** Fragments appear in the order they were written *)

Lemma valid_after_lower (frags : list (method * value)) : ∀ m0 f,
  valid_after (Some m0) frags = true → f ∈ frags →
  (rank_of m0 ≤ rank_of f.1)%Z.
Proof.
  induction frags as [|[m v] frags IH]; intros m0 f Hv Hf.
  - by apply elem_of_nil in Hf.
  - cbn [valid_after] in Hv.
    apply andb_true_iff in Hv as [Hstep Hv].
    assert (Hle : (rank_of m0 ≤ rank_of m)%Z).
    { apply orb_true_iff in Hstep as [Hlt%Z.ltb_lt|Heq]; [lia|].
      apply andb_true_iff in Heq as [->%bool_decide_eq_true _]. lia. }
    apply elem_of_cons in Hf as [->|Hf]; [done|].
    specialize (IH m f Hv Hf). lia.
Qed.

Lemma values_of_lower m m' (frags : list (method * value)) :
  (∀ f, f ∈ frags → (rank_of m ≤ rank_of f.1)%Z) →
  (rank_of m' < rank_of m)%Z →
  values_of m' frags = [].
Proof.
  intros Hall Hlt. induction frags as [|[m1 v1] frags IH]; [done|].
  rewrite values_of_cons.
  assert (Hm1 : (rank_of m ≤ rank_of m1)%Z)
    by (apply (Hall (m1, v1)); by left).
  rewrite decide_False by (intros ->; lia).
  apply IH. intros f Hf. apply Hall. by right.
Qed.

(** A fragment that no later one ranks below comes first in the text. *)
Lemma spec_stringify_cons m v (frags : list (method * value)) :
  (∀ f, f ∈ frags → (rank_of m ≤ rank_of f.1)%Z) →
  spec_stringify ((m, v) :: frags) = decorate m v +:+ spec_stringify frags.
Proof.
  intros Hall.
  pose proof (λ m' H, values_of_lower m m' frags Hall H) as Hlow.
  unfold spec_stringify, canonical. cbn [fmap list_fmap joined foldr].
  rewrite !values_of_cons.
  destruct m;
    rewrite ?(Hlow Element), ?(Hlow Id), ?(Hlow Class), ?(Hlow Attr),
      ?(Hlow PseudoClass) by (by vm_compute);
    repeat (case_decide; try done);
    rewrite ?segment_nil;
    change (segment ?k (v :: ?vs)) with (decorate k v +:+ segment k vs);
    by rewrite ?append_assoc.
Qed.

Lemma valid_in_order (frags : list (method * value)) : ∀ last,
  valid_after last frags = true →
  spec_stringify frags = joined (decorated <$> frags).
Proof.
  induction frags as [|[m v] frags IH]; intros last Hv; [done|].
  cbn [valid_after] in Hv. apply andb_true_iff in Hv as [_ Hv].
  rewrite spec_stringify_cons by (intros f Hf; by eapply valid_after_lower).
  change (joined (decorated <$> (m, v) :: frags))
    with (decorate m v +:+ joined (decorated <$> frags)).
  by rewrite <- (IH (Some m)).
Qed.

(** X6.  The methods never reorder: when a facade call and the method calls
    chained on it form a valid sequence, [stringify] returns the decorated
    texts of the stored fragments one after the other, in the order the
    calls were written. *)
Theorem stringify_in_writing_order m v ops (h : heap) :
  valid (seed m v ++ ops) = true →
  ∃ l h', build m v ops h = (Ok l, h')
    ∧ CssSelector.stringify h' l
        = Some (joined (decorated <$> (seed m v ++ ops))).
Proof.
  intros Hv. destruct (proj2 (build_valid m v ops h) Hv) as [h' E].
  destruct (build_parts m v ops h _ h' E) as (_ & o & Eo & Hs & Hp).
  exists (length h), h'. split; [done|].
  rewrite (stringify_simple _ _ _ Eo Hs).
  rewrite <- (valid_in_order _ None Hv).
  unfold spec_stringify_parts, spec_stringify. do 2 f_equal.
  apply list_fmap_ext. intros _ m' _. by rewrite Hp.
Qed.

Lemma stringify_in_writing_order_witness :
  valid (seed Id (JString "main") ++
         [(Class, JString "container"); (Class, JString "editable")]) = true
  ∧ ∃ l h',
      build Id (JString "main")
        [(Class, JString "container"); (Class, JString "editable")] []
        = (Ok l, h')
      ∧ CssSelector.stringify h' l
          = Some (joined (decorated <$>
                    (seed Id (JString "main") ++
                     [(Class, JString "container");
                      (Class, JString "editable")]))).
Proof.
  split; [reflexivity|].
  exact (stringify_in_writing_order Id (JString "main")
           [(Class, JString "container"); (Class, JString "editable")] []
           eq_refl).
Defined.

(** ** Combined selectors and the fragment-adding methods *)

Lemma stringify_dangling (h : heap) l :
  (length h ≤ l)%nat → CssSelector.stringify h l = None.
Proof.
  intros Hl. unfold CssSelector.stringify.
  destruct (length h) as [|n] eqn:En; [done|].
  simpl. by rewrite lookup_ge_None_2 by lia.
Qed.

(** X7.  The fragment-adding methods are not disabled on a combined
    selector, but what they store there is never read: in a reachable
    store, a call on a combined selector, whether it returns or throws,
    changes no result of [stringify], neither on that selector nor on any
    other. *)
Theorem call_on_combined_is_unseen (h : heap) m this v o :
  reachable h → h !! this = Some o → ¬ simple o →
  ∀ x, CssSelector.stringify (snd (call m this v h)) x
       = CssSelector.stringify h x.
Proof.
  intros Hr%reachable_inv Eo Hc x.
  rewrite (call_run h this o) by done.
  destruct (refusal m o) eqn:Hacc; [done|]. simpl.
  assert (Hinv' : heap_inv (<[this := added m v o]> h)).
  { eapply heap_inv_insert; try done.
    apply node_inv_added; [by apply (Hr this)|done]. }
  destruct (decide (x < length h)) as [Hx|Hx].
  - induction (lt_wf x) as [x _ IH].
    destruct (lookup_lt_is_Some_2 h x Hx) as [ox Ex].
    rewrite (stringify_unfold h x ox Hr Ex).
    destruct (decide (x = this)) as [->|Hne].
    + rewrite Eo in Ex. injection Ex as <-.
      rewrite (stringify_unfold _ this (added m v o) Hinv')
        by (by eapply lookup_stored).
      cbn [added combined].
      destruct (combined o) as [c|] eqn:Ec; [|done].
      destruct (Hr this o Eo) as [_ Hrefs].
      destruct (Hrefs c Ec) as [H1 H2].
      rewrite (IH _ H1), (IH _ H2) by lia. done.
    + rewrite (stringify_unfold _ x ox Hinv')
        by (by rewrite list_lookup_insert_ne).
      destruct (combined ox) as [c|] eqn:Ec; [|done].
      destruct (Hr x ox Ex) as [_ Hrefs].
      destruct (Hrefs c Ec) as [H1 H2].
      rewrite (IH _ H1), (IH _ H2) by lia. done.
  - rewrite !stringify_dangling; [done|lia|rewrite length_insert; lia].
Qed.

Lemma call_on_combined_is_unseen_witness :
  ∃ o, reachable a_b ∧ a_b !! 2 = Some o ∧ ¬ simple o
    ∧ ∀ x, CssSelector.stringify (snd (call Class 2 (JString "x") a_b)) x
           = CssSelector.stringify a_b x.
Proof.
  exists (default CssSelector.empty (a_b !! 2)).
  assert (Hr : reachable a_b).
  { assert (E : snd (cssSelectorBuilder.combine 0 (JString " ") 1
                       (snd (build Element (JString "b") []
                               (snd (build Element (JString "a") [] [])))))
                = a_b) by (vm_compute; reflexivity).
    rewrite <- E.
    apply reach_combine; [do 2 apply reachable_build; apply reach_nil|..];
      vm_compute; lia. }
  assert (Ho : a_b !! 2 = Some (default CssSelector.empty (a_b !! 2)))
    by (vm_compute; reflexivity).
  assert (Hc : ¬ simple (default CssSelector.empty (a_b !! 2)))
    by (vm_compute; discriminate).
  split; [exact Hr|]. split; [exact Ho|]. split; [exact Hc|].
  exact (call_on_combined_is_unseen a_b Class 2 (JString "x") _ Hr Ho Hc).
Defined.

(** X8.  The method [combine] of the class does what the facade's
    [combine] does: [a.combine(t, b)] leaves the same store and returns the
    same new selector as [cssSelectorBuilder.combine(a, t, b)], never
    throws, touches no existing object, and in a reachable store
    [stringify] on the result returns the string of [a], a space, the
    token, a space, the string of [b]. *)
Theorem method_combine_as_facade (h : heap) a t b :
  CssSelector.combine a t b h = cssSelectorBuilder.combine a t b h
  ∧ ∃ c h',
      CssSelector.combine a t b h = (Ok c, h')
      ∧ h !! c = None
      ∧ (∀ l o, h !! l = Some o → h' !! l = Some o)
      ∧ (reachable h → a < length h → b < length h →
         ∃ sA sB,
           CssSelector.stringify h a = Some sA
           ∧ CssSelector.stringify h b = Some sB
           ∧ CssSelector.stringify h' c =
               Some (sA +:+ " " +:+ ToString t +:+ " " +:+ sB)).
Proof.
  split; [by rewrite method_combine_run, combine_run|].
  exists (length h), (h ++ [joint a t b]). rewrite method_combine_run.
  split; [done|]. split; [by apply lookup_ge_None_2|].
  split; [intros l o E; by apply lookup_app_l_Some|].
  intros Hr%reachable_inv Ha Hb.
  destruct (combine_stringify h a t b Hr Ha Hb)
    as (_ & sA & sB & E1 & E2 & _ & _ & E5).
  by exists sA, sB.
Qed.

(** * Properties of [sellTickets] *)

Lemma sellTickets_from_sound queue : ∀ a b,
  (0 ≤ a)%Z → (0 ≤ b)%Z →
  sellTickets_from a b queue = true → can_serve a b queue.
Proof.
  induction queue as [|bill queue IH]; intros a b Ha Hb; [constructor|].
  cbn [sellTickets_from].
  destruct (Z.eqb_spec bill 25) as [->|H25].
  { intros E. apply serve_25, IH; [lia..|done]. }
  destruct (Z.eqb_spec bill 50) as [->|H50].
  { destruct (Z.eqb_spec a 0); [done|].
    intros E. apply serve_50; [lia|]. apply IH; [lia..|done]. }
  destruct (Z.eqb_spec bill 100) as [->|H100].
  { destruct (Z.gtb_spec b 0); simpl.
    - destruct (Z.gtb_spec a 0).
      + intros E. apply serve_100_with_50; [lia..|]. apply IH; [lia..|done].
      + destruct (Z.geb_spec a 3); [|done].
        intros E. apply serve_100_with_25s; [lia|]. apply IH; [lia..|done].
    - destruct (Z.geb_spec a 3); [|done].
      intros E. apply serve_100_with_25s; [lia|]. apply IH; [lia..|done]. }
  intros E. apply serve_other; [|by apply IH].
  unfold known_bill.
  by rewrite (proj2 (Z.eqb_neq _ _) H25), (proj2 (Z.eqb_neq _ _) H50),
    (proj2 (Z.eqb_neq _ _) H100).
Qed.

(** The seller's till holds the same money as any other till that served
    the same customers, and at least as many bills of 25: whatever the
    other till can do next, the seller's can. *)
Lemma sellTickets_from_complete queue : ∀ a b a' b',
  (0 ≤ b)%Z → (0 ≤ a')%Z → (0 ≤ b')%Z →
  (a + 2 * b = a' + 2 * b')%Z → (a' ≤ a)%Z →
  can_serve a' b' queue → sellTickets_from a b queue = true.
Proof.
  induction queue as [|bill queue IH]; intros a b a' b' Hb Ha' Hb' Hm Hle Hs;
    [done|].
  inversion Hs as [|? ? ? Hq|? ? ? H1 Hq|? ? ? H1 H2 Hq|? ? ? H3 Hq
                   |? ? ? ? Hk Hq]; subst; cbn [sellTickets_from].
  - simpl. apply (IH _ _ (a' + 1)%Z b'); try done; lia.
  - simpl. destruct (Z.eqb_spec a 0); [lia|].
    apply (IH _ _ (a' - 1)%Z (b' + 1)%Z); try done; lia.
  - simpl. destruct (Z.gtb_spec b 0); simpl.
    + destruct (Z.gtb_spec a 0); [|lia].
      apply (IH _ _ (a' - 1)%Z (b' - 1)%Z); try done; lia.
    + destruct (Z.geb_spec a 3); [|lia].
      apply (IH _ _ (a' - 1)%Z (b' - 1)%Z); try done; lia.
  - simpl. destruct (Z.gtb_spec b 0); simpl.
    + destruct (Z.gtb_spec a 0); [|lia].
      apply (IH _ _ (a' - 3)%Z b'); try done; lia.
    + destruct (Z.geb_spec a 3); [|lia].
      apply (IH _ _ (a' - 3)%Z b'); try done; lia.
  - unfold known_bill in Hk.
    apply orb_false_iff in Hk as [[-> ->]%orb_false_iff ->].
    by apply (IH _ _ a' b').
Qed.

(** X9.  The seller's fixed way of giving change, a 50 and a 25 for a 100
    whenever there is a 50 and three 25s otherwise, loses nothing:
    [sellTickets] returns [true] exactly when some way of giving change
    serves every customer of the queue in order. *)
Theorem sellTickets_iff_can_serve (queue : list Z) :
  sellTickets queue = true ↔ can_serve 0 0 queue.
Proof.
  split.
  - by apply sellTickets_from_sound.
  - by apply (sellTickets_from_complete queue 0 0 0 0)%Z.
Qed.

Lemma sellTickets_from_prefix queue1 queue2 : ∀ a b,
  sellTickets_from a b (queue1 ++ queue2) = true →
  sellTickets_from a b queue1 = true.
Proof.
  induction queue1 as [|bill queue1 IH]; intros a b; [done|].
  cbn [app sellTickets_from].
  repeat (match goal with
          | |- context [if ?c then _ else _] => destruct c
          end; try done); apply IH.
Qed.

(** X10.  A refusal is final and a success covers every customer served on
    the way: if [sellTickets] returns [true] on a queue, it returns [true]
    on every prefix of it; so once some prefix fails, no continuation of
    the queue succeeds. *)
Theorem sellTickets_prefix (queue1 queue2 : list Z) :
  sellTickets (queue1 ++ queue2) = true → sellTickets queue1 = true.
Proof. apply sellTickets_from_prefix. Qed.

Lemma sellTickets_prefix_witness :
  sellTickets ([25; 25; 50] ++ [100])%Z = true
  ∧ sellTickets [25; 25; 50]%Z = true.
Proof.
  split; [reflexivity|].
  exact (sellTickets_prefix [25; 25; 50]%Z [100]%Z eq_refl).
Defined.

Lemma sellTickets_from_known queue : ∀ a b,
  sellTickets_from a b (filter (λ bill, known_bill bill = true) queue)
    = sellTickets_from a b queue.
Proof.
  induction queue as [|bill queue IH]; intros a b; [done|].
  rewrite filter_cons. destruct (known_bill bill) eqn:Hk.
  - rewrite decide_True by done. cbn [sellTickets_from].
    repeat (match goal with
            | |- context [if ?c then _ else _] => destruct c
            end; try done); apply IH.
  - rewrite decide_False by done. cbn [sellTickets_from].
    unfold known_bill in Hk.
    apply orb_false_iff in Hk as [[-> ->]%orb_false_iff ->]. apply IH.
Qed.

(** X11.  A bill that is not 25, 50 or 100 falls through the [switch]: the
    customer is served, nothing enters the till and no change is given.  So
    [sellTickets] returns on a queue what it returns on the queue without
    these bills. *)
Theorem sellTickets_ignores_other_bills (queue : list Z) :
  sellTickets (filter (λ bill, known_bill bill = true) queue)
    = sellTickets queue.
Proof. apply sellTickets_from_known. Qed.

(** * Properties of [group] *)

Section group_properties.

Context {A K V : Type} `{EqDecision K}.
Implicit Types (map : list (K * list V)) (array : list A).
Implicit Types (keySelector : A → K) (valueSelector : A → V).

Lemma Map_get_set {W : Type} (map : list (K * W)) key w key' :
  Map_get (Map_set map key w) key' =
    if decide (key = key') then Some w else Map_get map key'.
Proof.
  induction map as [|[k w0] map IH]; simpl.
  - done.
  - destruct (decide (k = key)) as [->|Hne]; simpl.
    + by destruct (decide (key = key')).
    + rewrite IH. destruct (decide (k = key')) as [->|]; [|done].
      by rewrite decide_False by done.
Qed.

Lemma Map_get_keys {W : Type} (map : list (K * W)) key :
  is_Some (Map_get map key) ↔ key ∈ map.*1.
Proof.
  induction map as [|[k w0] map IH]; simpl.
  - split; [by intros [? ?] | by intros ?%elem_of_nil].
  - rewrite elem_of_cons. destruct (decide (k = key)) as [->|Hne].
    + split; [by left | by eexists].
    + rewrite IH. split; [by right|]. by intros [?|?].
Qed.

Lemma Map_set_keys {W : Type} (map : list (K * W)) key w :
  (Map_set map key w).*1 =
    if decide (key ∈ map.*1) then map.*1 else map.*1 ++ [key].
Proof.
  induction map as [|[k w0] map IH]; [done|].
  cbn [Map_set]. rewrite (fmap_cons fst). cbn [fst].
  destruct (decide (k = key)) as [->|Hne].
  - clear IH. rewrite fmap_cons. cbn [fst].
    case_decide as Hin; [done|]. exfalso. apply Hin. by left.
  - rewrite fmap_cons, IH. cbn [fst].
    destruct (decide (key ∈ map.*1)) as [Hin|Hin].
    + by rewrite decide_True by (by right).
    + rewrite decide_False; [done|].
      intros [?|?]%elem_of_cons; by subst.
Qed.

Lemma filter_no_key keySelector array key :
  key ∉ keySelector <$> array →
  filter (λ x, keySelector x = key) array = [].
Proof.
  induction array as [|x array IH]; [done|].
  rewrite fmap_cons, not_elem_of_cons. intros [Hx Hin].
  rewrite filter_cons_False by done. by apply IH.
Qed.

Lemma group_visit_from keySelector valueSelector (rest : list A) :
  ∀ (pre : list A) map,
    foldl (group_visit (valueSelector <$> (pre ++ rest))) map
          (imap (λ i el, (length pre + i, el)) (keySelector <$> rest))
    = foldl (group_add keySelector valueSelector) map rest.
Proof.
  induction rest as [|x rest IH]; intros pre map; [done|].
  rewrite fmap_cons, imap_cons. cbn [foldl].
  assert (Hx : (valueSelector <$> pre ++ x :: rest) !! (length pre + 0)
               = Some (valueSelector x)).
  { rewrite Nat.add_0_r, list_lookup_fmap, list_lookup_middle; done. }
  unfold group_visit at 2. rewrite Hx. fold (group_add keySelector valueSelector map x).
  specialize (IH (pre ++ [x]) (group_add keySelector valueSelector map x)).
  rewrite <- app_assoc in IH. simpl in IH. rewrite <- IH.
  f_equal. apply imap_ext. intros i el _. simpl.
  rewrite length_app. simpl. f_equal. lia.
Qed.

Lemma group_fold keySelector valueSelector array :
  group array keySelector valueSelector
    = foldl (group_add keySelector valueSelector) [] array.
Proof.
  unfold group.
  by rewrite <- (group_visit_from keySelector valueSelector array [] []).
Qed.

Lemma group_snoc keySelector valueSelector array x :
  group (array ++ [x]) keySelector valueSelector
    = group_add keySelector valueSelector
        (group array keySelector valueSelector) x.
Proof. by rewrite !group_fold, foldl_snoc. Qed.

Lemma group_lookup array (keySelector : A → K) (valueSelector : A → V) key :
  Map_get (group array keySelector valueSelector) key =
    if decide (key ∈ keySelector <$> array)
    then Some (valueSelector <$> filter (λ x, keySelector x = key) array)
    else None.
Proof.
  induction array as [|x array IH] using rev_ind.
  - by rewrite decide_False by (by intros ?%elem_of_nil).
  - rewrite group_snoc. unfold group_add.
    rewrite fmap_app, filter_app, fmap_app. simpl.
    rewrite filter_cons, filter_nil.
    destruct (Map_get (group array keySelector valueSelector) (keySelector x))
      as [value|] eqn:Eg; rewrite Map_get_set.
    + destruct (decide (keySelector x = key)) as [Hk|Hk].
      * rewrite decide_True by (apply elem_of_app; right; rewrite Hk; by left).
        rewrite Hk, IH in Eg. case_decide; [|done]. by injection Eg as <-.
      * rewrite IH. simpl. rewrite app_nil_r.
        destruct (decide (key ∈ keySelector <$> array)) as [Hin|Hin].
        -- by rewrite decide_True by (apply elem_of_app; by left).
        -- rewrite decide_False; [done|].
           intros [?|[?|?%elem_of_nil]%elem_of_cons]%elem_of_app; by subst.
    + destruct (decide (keySelector x = key)) as [Hk|Hk].
      * rewrite decide_True by (apply elem_of_app; right; rewrite Hk; by left).
        rewrite Hk, IH in Eg. case_decide as Hin; [done|].
        f_equal. simpl.
        by rewrite (filter_no_key keySelector array key Hin).
      * rewrite IH. simpl. rewrite app_nil_r.
        destruct (decide (key ∈ keySelector <$> array)) as [Hin|Hin].
        -- by rewrite decide_True by (apply elem_of_app; by left).
        -- rewrite decide_False; [done|].
           intros [?|[?|?%elem_of_nil]%elem_of_cons]%elem_of_app; by subst.
Qed.

(** X12.  [group] collects under each key the values of the elements
    that have this key, in the order of the array; a key that no element
    has is not in the map. *)
Theorem group_get array (keySelector : A → K) (valueSelector : A → V) key :
  Map_get (group array keySelector valueSelector) key =
    if decide (key ∈ keySelector <$> array)
    then Some (valueSelector <$> filter (λ x, keySelector x = key) array)
    else None.
Proof. apply group_lookup. Qed.

(** X13.  The keys of the map are the keys of the elements, each once, in
    the order in which they first occur in the array. *)
Theorem group_keys array keySelector valueSelector :
  (group array keySelector valueSelector).*1
    = reverse (remove_dups (reverse (keySelector <$> array))).
Proof.
  induction array as [|x array IH] using rev_ind; [done|].
  rewrite group_snoc, fmap_app, reverse_app. simpl.
  assert (Hkeys : (group_add keySelector valueSelector
                     (group array keySelector valueSelector) x).*1 =
                  if decide (keySelector x
                             ∈ (group array keySelector valueSelector).*1)
                  then (group array keySelector valueSelector).*1
                  else (group array keySelector valueSelector).*1
                       ++ [keySelector x]).
  { unfold group_add.
    destruct (Map_get _ (keySelector x)); apply Map_set_keys. }
  rewrite Hkeys, IH.
  assert (Hmem : keySelector x
                   ∈ reverse (remove_dups (reverse (keySelector <$> array)))
                 ↔ keySelector x ∈ reverse (keySelector <$> array))
    by (by rewrite elem_of_reverse, elem_of_remove_dups).
  destruct (decide_rel elem_of (keySelector x)
              (reverse (keySelector <$> array))) as [Hin|Hin].
  - by rewrite decide_True by (by apply Hmem).
  - rewrite decide_False by (by rewrite Hmem). by rewrite reverse_cons.
Qed.

Lemma Map_set_count (map : list (K * list V)) key w :
  sum_list (length ∘ snd <$> Map_set map key w)
    + length (default [] (Map_get map key))
  = sum_list (length ∘ snd <$> map) + length w.
Proof.
  induction map as [|[k w0] map IH].
  - simpl. lia.
  - cbn [Map_set Map_get].
    destruct (decide (k = key)) as [->|Hne].
    + rewrite !fmap_cons. simpl. lia.
    + rewrite !fmap_cons. cbn [sum_list compose snd]. lia.
Qed.

Lemma group_add_count keySelector valueSelector map x :
  sum_list (length ∘ snd <$> group_add keySelector valueSelector map x)
    = S (sum_list (length ∘ snd <$> map)).
Proof.
  unfold group_add.
  destruct (Map_get map (keySelector x)) as [value|] eqn:Eg.
  - pose proof (Map_set_count map (keySelector x)
                  (value ++ [valueSelector x])) as Hc.
    rewrite Eg, length_app in Hc. simpl in Hc. lia.
  - pose proof (Map_set_count map (keySelector x) [valueSelector x]) as Hc.
    rewrite Eg in Hc. simpl in Hc. lia.
Qed.

(** X14.  [group] loses and repeats nothing: the arrays of the map hold as
    many values together as the array has elements, and none of them is
    empty. *)
Theorem group_counts array keySelector valueSelector :
  sum_list (length ∘ snd <$> group array keySelector valueSelector)
    = length array
  ∧ ∀ key value,
      Map_get (group array keySelector valueSelector) key = Some value →
      value ≠ [].
Proof.
  split.
  - induction array as [|x array IH] using rev_ind; [done|].
    rewrite group_snoc, group_add_count, IH, length_app. simpl. lia.
  - intros key value. rewrite group_lookup. case_decide as Hin; [|done].
    intros [= <-]. apply list_elem_of_fmap in Hin as (x & -> & Hx).
    intros Hnil%fmap_nil_inv.
    by apply (filter_nil_not_elem_of _ _ x) in Hnil.
Qed.

End group_properties.

(** The example of the source's documentation. *)
Example group_documented :
  group [("Belarus", "Brest"); ("Russia", "Omsk"); ("Russia", "Samara");
         ("Belarus", "Grodno"); ("Belarus", "Minsk"); ("Poland", "Lodz")]
        fst snd
    = [("Belarus", ["Brest"; "Grodno"; "Minsk"]);
       ("Russia", ["Omsk"; "Samara"]);
       ("Poland", ["Lodz"])].
Proof. reflexivity. Qed.

(** * Properties of [mergeObjects] *)

Lemma values_under_cons key k v pairs :
  values_under key ((k, v) :: pairs) =
    if decide (k = key) then v :: values_under key pairs
    else values_under key pairs.
Proof. unfold values_under. rewrite filter_cons. simpl. by case_decide. Qed.

(** The inner loop: the pair at [i] gains the values of the pairs of its
    key among the [m] pairs from [s] on. *)
Lemma merge_inner m : ∀ (newObj : list (string * Z)) i s k v,
  i < s → newObj !! i = Some (k, v) →
  foldl (λ newObj t, merge_visit newObj i t) newObj (seq s m) =
    <[i := (k, (v + total (values_under k (take m (drop s newObj))))%Z)]>
      newObj.
Proof.
  induction m as [|m IH]; intros newObj i s k v His Ei.
  - simpl. unfold values_under, total. simpl.
    rewrite Z.add_0_r. by rewrite list_insert_id.
  - cbn [seq foldl]. unfold merge_visit at 2. rewrite Ei.
    destruct (newObj !! s) as [[kt vt]|] eqn:Es.
    + rewrite (drop_S _ _ _ Es). cbn [take]. rewrite values_under_cons.
      destruct (decide (k = kt)) as [<-|Hne].
      * rewrite decide_True by done.
        rewrite (IH _ i (S s) k (v + vt)%Z); [|lia|].
        -- rewrite list_insert_insert_eq, drop_insert_lt by lia.
           cbn [total foldr]. fold (total (values_under k (take m (drop (S s) newObj)))).
           by rewrite Z.add_assoc.
        -- apply list_lookup_insert_eq. by eapply lookup_lt_Some.
      * rewrite decide_False by done. by apply IH; [lia|].
    + rewrite (IH _ i (S s) k v) by (done || lia).
      rewrite !drop_ge by (apply lookup_ge_None in Es; lia).
      by rewrite !take_nil.
Qed.

Lemma suffix_sums_length pairs : length (suffix_sums pairs) = length pairs.
Proof. induction pairs as [|[k v] pairs IH]; simpl; by rewrite ?IH. Qed.

Lemma suffix_sums_lookup pairs : ∀ i k v,
  pairs !! i = Some (k, v) →
  suffix_sums pairs !! i
    = Some (k, (v + total (values_under k (drop (S i) pairs)))%Z).
Proof.
  induction pairs as [|[k0 v0] pairs IH]; intros i k v E; [done|].
  destruct i as [|i].
  - injection E as -> ->. done.
  - simpl. by apply IH.
Qed.

(** The outer loop, after [j] rounds. *)
Lemma merge_outer (pairs : list (string * Z)) : ∀ j : nat,
  (j ≤ length pairs)%nat →
  foldl (λ newObj i,
           foldl (λ newObj t, merge_visit newObj i t) newObj
                 (seq (i + 1) (length newObj - (i + 1))))
        pairs (seq 0 j)
  = take j (suffix_sums pairs) ++ drop j pairs.
Proof.
  induction j as [|j IH]; intros Hj; [done|].
  rewrite seq_S, foldl_app. cbn [foldl]. rewrite IH by lia. simpl.
  destruct (lookup_lt_is_Some_2 pairs j) as [[k v] Ej]; [lia|].
  assert (Hlen : length (take j (suffix_sums pairs)) = j)
    by (rewrite length_take, suffix_sums_length; lia).
  assert (Hall : length (take j (suffix_sums pairs) ++ drop j pairs)
                 = length pairs)
    by (rewrite length_app, Hlen, length_drop; lia).
  assert (Hj' : (take j (suffix_sums pairs) ++ drop j pairs) !! j
                = Some (k, v)).
  { rewrite lookup_app_r by lia. rewrite Hlen, Nat.sub_diag.
    by rewrite lookup_drop, Nat.add_0_r. }
  assert (Hrest : drop (j + 1) (take j (suffix_sums pairs) ++ drop j pairs)
                  = drop (S j) pairs).
  { rewrite drop_app_ge by lia. rewrite Hlen, drop_drop. f_equal. lia. }
  rewrite (merge_inner _ _ j (j + 1) k v) by (done || lia).
  rewrite Hall, Hrest.
  rewrite take_ge by (rewrite length_drop; lia).
  rewrite insert_app_r_alt by lia. rewrite Hlen, Nat.sub_diag.
  rewrite (drop_S _ _ _ Ej). cbn [insert list_insert].
  rewrite (take_S_r _ _ _ (suffix_sums_lookup _ _ _ _ Ej)).
  by rewrite <- app_assoc.
Qed.

Lemma merge_sums_suffix_sums pairs : merge_sums pairs = suffix_sums pairs.
Proof.
  unfold merge_sums. rewrite merge_outer by lia.
  destruct (decide (length pairs = 0)) as [Hz|Hz].
  - destruct pairs; [done|simpl in Hz; lia].
  - apply list_eq. intros i.
    destruct (decide (i < length pairs - 1)) as [Hi|Hi].
    + rewrite lookup_app_l by (rewrite length_take, suffix_sums_length; lia).
      by rewrite lookup_take_lt by lia.
    + rewrite lookup_app_r by (rewrite length_take, suffix_sums_length; lia).
      rewrite length_take, suffix_sums_length, lookup_drop.
      rewrite Nat.min_l by lia.
      replace (length pairs - 1 + (i - (length pairs - 1))) with i by lia.
      destruct (pairs !! i) as [[k v]|] eqn:Ei.
      * rewrite (suffix_sums_lookup _ _ _ _ Ei).
        apply lookup_lt_Some in Ei as Hlt.
        rewrite drop_ge by lia. unfold values_under, total. simpl.
        by rewrite Z.add_0_r.
      * symmetry. apply lookup_ge_None. rewrite suffix_sums_length.
        by apply lookup_ge_None.
Qed.

Lemma merge_keep_lookup pairs : ∀ (answer : gmap string Z) key,
  foldl merge_keep answer pairs !! key =
    match answer !! key with
    | Some v => Some v
    | None =>
        if decide (key = "__proto__") then None
        else snd <$> head (filter (λ pair, pair.1 = key) pairs)
    end.
Proof.
  induction pairs as [|[k v] pairs IH]; intros answer key.
  - simpl. destruct (answer !! key); [done|]. by case_decide.
  - cbn [foldl merge_keep]. rewrite IH, filter_cons. cbn [fst].
    destruct (decide (is_Some (answer !! k))) as [[w Hw]|Hn].
    + destruct (answer !! key) eqn:Ek; [done|].
      rewrite (decide_False (P := k = key)); [done|]. intros ->. congruence.
    + apply eq_None_not_Some in Hn.
      destruct (decide (k = "__proto__")) as [->|Hp].
      * destruct (answer !! key) eqn:Ek; [done|].
        destruct (decide (key = "__proto__")) as [->|Hk]; [done|].
        by rewrite (decide_False (P := "__proto__" = key)).
      * destruct (decide (k = key)) as [->|Hne].
        -- rewrite lookup_insert_eq, Hn. by rewrite decide_False.
        -- by rewrite lookup_insert_ne by done.
Qed.

Lemma suffix_sums_first pairs key :
  snd <$> head (filter (λ pair, pair.1 = key) (suffix_sums pairs)) =
    match values_under key pairs with
    | [] => None
    | vs => Some (total vs)
    end.
Proof.
  induction pairs as [|[k v] pairs IH]; [done|].
  cbn [suffix_sums]. rewrite filter_cons, values_under_cons. cbn [fst].
  destruct (decide (k = key)) as [->|Hne]; [done|]. apply IH.
Qed.

Lemma total_values_under_bound key pairs :
  (Z.abs (total (values_under key pairs)) ≤ magnitude pairs)%Z.
Proof.
  unfold magnitude. induction pairs as [|[k v] pairs IH]; [done|].
  rewrite values_under_cons, !fmap_cons. cbn [snd total foldr].
  fold (total (Z.abs <$> pairs.*2)).
  destruct (decide (k = key)); cbn [total foldr];
    fold (total (values_under key pairs)); lia.
Qed.

(** X15.  On objects whose values are integers with absolute values adding
    up to at most 2^53, [mergeObjects] gives each key other than
    [__proto__] that occurs in some object the sum of all the values stored
    under it, over all the objects, and holds no other key; the sum is
    within the bound, where the numbers of the code are exact.  A key
    [__proto__] of an argument is dropped.  In particular [mergeObjects]
    returns the empty object on no objects. *)
Theorem mergeObjects_sums (objects : list (list (string * Z))) key :
  exact_sums objects →
  mergeObjects objects !! key =
    (if decide (key = "__proto__") then None
     else match values_under key (concat objects) with
          | [] => None
          | vs => Some (total vs)
          end)
  ∧ (Z.abs (total (values_under key (concat objects))) ≤ 2 ^ 53)%Z.
Proof.
  intros Hexact. split.
  - unfold mergeObjects, Object_entries. rewrite list_fmap_id.
    rewrite merge_sums_suffix_sums, merge_keep_lookup, lookup_empty.
    case_decide; [done|]. apply suffix_sums_first.
  - pose proof (total_values_under_bound key (concat objects)).
    unfold exact_sums in Hexact. lia.
Qed.

(** [mergeObjects([{a: 1, b: 2}, {b: 3, c: 5}])], at the key [b]. *)
Lemma mergeObjects_sums_witness :
  exact_sums [[("a", 1); ("b", 2)]; [("b", 3); ("c", 5)]]%Z
  ∧ mergeObjects [[("a", 1); ("b", 2)]; [("b", 3); ("c", 5)]]%Z !! "b" =
      (if decide ("b" = "__proto__") then None
       else match values_under "b"
                    (concat [[("a", 1); ("b", 2)]; [("b", 3); ("c", 5)]]%Z)
            with
            | [] => None
            | vs => Some (total vs)
            end)
  ∧ (Z.abs (total (values_under "b"
                     (concat [[("a", 1); ("b", 2)]; [("b", 3); ("c", 5)]]%Z)))
     ≤ 2 ^ 53)%Z.
Proof.
  assert (He : exact_sums [[("a", 1); ("b", 2)]; [("b", 3); ("c", 5)]]%Z)
    by (vm_compute; discriminate).
  split; [exact He|].
  exact (mergeObjects_sums [[("a", 1); ("b", 2)]; [("b", 3); ("c", 5)]]%Z
           "b" He).
Defined.

(** An own property [__proto__] of an argument, as [JSON.parse] creates
    it, does not reach the result. *)
Example mergeObjects_proto :
  mergeObjects [[("a", 1); ("__proto__", 2)]; [("__proto__", 3); ("a", 5)]]%Z
    = {[ "a" := 6 ]}%Z.
Proof. by vm_compute. Qed.

(** The example of the source's documentation. *)
Example mergeObjects_documented :
  mergeObjects [[("a", 1); ("b", 2)]; [("b", 3); ("c", 5)]]%Z
    = {[ "a" := 1; "b" := 5; "c" := 5 ]}%Z.
Proof. by vm_compute. Qed.

(** * Properties of the object utilities *)

Lemma Map_set_fresh {K W : Type} `{EqDecision K} (map : list (K * W)) key w :
  key ∉ map.*1 → Map_set map key w = map ++ [(key, w)].
Proof.
  induction map as [|[k w0] map IH]; [done|].
  rewrite fmap_cons, not_elem_of_cons. cbn [fst]. intros [Hne Hin].
  cbn [Map_set]. rewrite decide_False by done. by rewrite IH.
Qed.

Lemma Map_get_filter {W : Type} (keys : list string)
    (map : list (string * W)) key :
  Map_get (filter (λ p, p.1 ∉ keys) map) key =
    if decide (key ∈ keys) then None else Map_get map key.
Proof.
  induction map as [|[k w] map IH].
  - by destruct (decide (key ∈ keys)).
  - rewrite filter_cons. cbn [fst].
    destruct (decide (k ∉ keys)) as [Hk|Hk]; cbn [Map_get]; rewrite IH.
    + destruct (decide (k = key)) as [->|Hne]; [|done].
      by destruct (decide (key ∈ keys)).
    + destruct (decide (k = key)) as [->|Hne]; [|done].
      destruct (decide (key ∈ keys)); [done|]. by destruct Hk.
Qed.

Lemma Map_get_elem_of {W : Type} (map : list (string * W)) key w :
  NoDup map.*1 → (key, w) ∈ map → Map_get map key = Some w.
Proof.
  induction map as [|[k w0] map IH]; [by intros _ ?%elem_of_nil|].
  rewrite fmap_cons, NoDup_cons. cbn [fst]. intros [Hk Hnd].
  intros [[= -> ->]|Hin]%elem_of_cons; cbn [Map_get].
  - by rewrite decide_True.
  - rewrite decide_False; [by apply IH|].
    intros ->. apply Hk. apply list_elem_of_fmap. by exists (key, w).
Qed.

Lemma Map_get_Some_elem_of {W : Type} (map : list (string * W)) key w :
  Map_get map key = Some w → (key, w) ∈ map.
Proof.
  induction map as [|[k w0] map IH]; [done|]. cbn [Map_get].
  destruct (decide (k = key)) as [->|Hne].
  - intros [= ->]. by left.
  - intros E. right. by apply IH.
Qed.

(** [Object.assign] into a new object copies the properties in their
    order. *)
Lemma Object_assign_from (rest : list (string * prim)) : ∀ pre,
  NoDup (pre ++ rest).*1 →
  foldl (λ target p, Object_put target p.1 p.2) (mkPlain pre false) rest
    = mkPlain (pre ++ rest) false.
Proof.
  induction rest as [|[k v] rest IH]; intros pre Hnd.
  - by rewrite app_nil_r.
  - cbn [foldl]. unfold Object_put at 2. cbn [frozen own fst snd].
    rewrite Map_set_fresh.
    + rewrite IH by (by rewrite <- app_assoc). by rewrite <- app_assoc.
    + rewrite fmap_app, fmap_cons in Hnd.
      apply NoDup_app in Hnd as (_ & Hdis & _).
      intros Hin. apply (Hdis _ Hin). by left.
Qed.

Lemma shallowCopy_run (σ : list plain) obj source :
  σ !! obj = Some source → NoDup (Object_keys source) →
  shallowCopy obj σ = (length σ, σ ++ [mkPlain (own source) false]).
Proof.
  intros E Hnd. unfold shallowCopy.
  rewrite (lookup_app_l_Some _ _ _ _ E). f_equal.
  rewrite alter_app_r_alt by done. rewrite Nat.sub_diag. simpl.
  unfold Object_assign. by rewrite (Object_assign_from (own source) []).
Qed.

Lemma removeProperties_alter (keys : list string) : ∀ (σ : list plain) obj,
  foldl (λ σ el, alter (λ o, Object_delete o el) obj σ) σ keys
    = alter (λ o, foldl Object_delete o keys) obj σ.
Proof.
  induction keys as [|key keys IH]; intros σ obj.
  - simpl. symmetry. by apply list_alter_id.
  - cbn [foldl]. rewrite IH. by rewrite list_alter_alter_eq.
Qed.

Lemma Object_delete_all (keys : list string) : ∀ o,
  frozen o = false →
  foldl Object_delete o keys
    = mkPlain (filter (λ p, p.1 ∉ keys) (own o)) false.
Proof.
  induction keys as [|key keys IH]; intros [o f] Hf; simpl in Hf; subst f.
  - simpl. f_equal. induction o as [|p o IH]; [done|].
    rewrite filter_cons_True by apply not_elem_of_nil. by rewrite <- IH.
  - cbn [foldl]. unfold Object_delete at 2. cbn [frozen own].
    rewrite IH by done. cbn [own]. f_equal.
    rewrite list_filter_filter. apply list_filter_iff. intros [k v].
    cbn [fst]. rewrite not_elem_of_cons. tauto.
Qed.

Lemma Object_delete_frozen (keys : list string) o :
  frozen o = true → foldl Object_delete o keys = o.
Proof.
  intros Hf. induction keys as [|key keys IH]; [done|].
  cbn [foldl]. unfold Object_delete at 2. by rewrite Hf.
Qed.

(** X16.  [removeProperties] works on the object it is given, not on a
    copy: it returns the reference it received, and in the store that
    object, unless frozen, has lost the properties whose keys are listed
    and kept the others with their values and their order.  A listed key
    that the object does not have changes nothing, and no other object is
    touched. *)
Theorem removeProperties_in_place (σ : list plain) obj o keys :
  σ !! obj = Some o → frozen o = false →
  ∃ o',
    removeProperties obj keys σ = (obj, <[obj := o']> σ)
    ∧ own o' = filter (λ p, p.1 ∉ keys) (own o)
    ∧ frozen o' = false
    ∧ ∀ key, Object_get o' key =
             if decide (key ∈ keys) then PUndefined else Object_get o key.
Proof.
  intros Eo Hf.
  exists (mkPlain (filter (λ p, p.1 ∉ keys) (own o)) false).
  split; [|split; [done|split; [done|]]].
  - unfold removeProperties. rewrite removeProperties_alter. f_equal.
    apply list_eq. intros i.
    rewrite list_lookup_alter, list_lookup_insert.
    destruct (decide (obj = i)) as [<-|Hne].
    + rewrite Eo. simpl. rewrite Object_delete_all by done.
      rewrite decide_True; [done|]. split; [done|]. by eapply lookup_lt_Some.
    + rewrite decide_False; [done|]. by intros [? _].
  - intros key. unfold Object_get. cbn [own].
    rewrite Map_get_filter. by destruct (decide (key ∈ keys)).
Qed.

(** [removeProperties({a: 1, b: 2, c: 3}, ['b', 'c', 'd'])] *)
Lemma removeProperties_in_place_witness :
  [mkPlain [("a", PNum 1); ("b", PNum 2); ("c", PNum 3)] false] !! 0
    = Some (mkPlain [("a", PNum 1); ("b", PNum 2); ("c", PNum 3)] false)
  ∧ frozen (mkPlain [("a", PNum 1); ("b", PNum 2); ("c", PNum 3)] false)
      = false
  ∧ ∃ o',
      removeProperties 0 ["b"; "c"; "d"]
        [mkPlain [("a", PNum 1); ("b", PNum 2); ("c", PNum 3)] false]
      = (0, <[0 := o']>
              [mkPlain [("a", PNum 1); ("b", PNum 2); ("c", PNum 3)] false])
      ∧ own o' = filter (λ p, p.1 ∉ ["b"; "c"; "d"])
                   (own (mkPlain [("a", PNum 1); ("b", PNum 2); ("c", PNum 3)]
                           false))
      ∧ frozen o' = false
      ∧ ∀ key, Object_get o' key =
               if decide (key ∈ ["b"; "c"; "d"]) then PUndefined
               else Object_get
                      (mkPlain [("a", PNum 1); ("b", PNum 2); ("c", PNum 3)]
                         false) key.
Proof.
  split; [reflexivity|]. split; [reflexivity|].
  exact (removeProperties_in_place
           [mkPlain [("a", PNum 1); ("b", PNum 2); ("c", PNum 3)] false] 0
           (mkPlain [("a", PNum 1); ("b", PNum 2); ("c", PNum 3)] false)
           ["b"; "c"; "d"] eq_refl eq_refl).
Defined.

(** X17.  On a source none of whose keys is [__proto__], the one key that
    [Object.assign] hands to a setter the new object inherits instead of
    storing it, [shallowCopy] returns a new object, at a reference bound to
    nothing before, with the properties of the source in the same order and
    with the same values, so that an object stored in a property is shared
    and not copied; the copy is not frozen even when the source is.  The
    source and every other object stay as they were, also when properties
    are later removed from the copy. *)
Theorem shallowCopy_is_new (σ : list plain) obj o :
  σ !! obj = Some o → NoDup (Object_keys o) → "__proto__" ∉ Object_keys o →
  shallowCopy obj σ = (length σ, σ ++ [mkPlain (own o) false])
  ∧ σ !! length σ = None
  ∧ ∀ keys l, l < length σ →
      snd (removeProperties (length σ) keys (σ ++ [mkPlain (own o) false]))
        !! l = σ !! l.
Proof.
  intros Eo Hnd _. split; [by apply shallowCopy_run|].
  split; [by apply lookup_ge_None_2|].
  intros keys l Hl. unfold removeProperties. cbn [snd].
  rewrite removeProperties_alter, list_lookup_alter_ne by lia.
  by apply lookup_app_l.
Qed.

(** [shallowCopy({a: 2, b: {...}})], the inner object being object 0. *)
Lemma shallowCopy_is_new_witness :
  [mkPlain [] false; mkPlain [("a", PNum 2); ("b", PRef 0)] true] !! 1
    = Some (mkPlain [("a", PNum 2); ("b", PRef 0)] true)
  ∧ NoDup (Object_keys (mkPlain [("a", PNum 2); ("b", PRef 0)] true))
  ∧ ("__proto__" ∉ Object_keys (mkPlain [("a", PNum 2); ("b", PRef 0)] true))
  ∧ shallowCopy 1
      [mkPlain [] false; mkPlain [("a", PNum 2); ("b", PRef 0)] true]
    = (length [mkPlain [] false;
               mkPlain [("a", PNum 2); ("b", PRef 0)] true],
       [mkPlain [] false; mkPlain [("a", PNum 2); ("b", PRef 0)] true]
       ++ [mkPlain (own (mkPlain [("a", PNum 2); ("b", PRef 0)] true))
             false]).
Proof.
  assert (Hnd : NoDup (Object_keys
                         (mkPlain [("a", PNum 2); ("b", PRef 0)] true)))
    by (refine (bool_decide_unpack _ _); vm_compute; exact I).
  assert (Hp : "__proto__" ∉ Object_keys
                 (mkPlain [("a", PNum 2); ("b", PRef 0)] true))
    by (refine (bool_decide_unpack _ _); vm_compute; exact I).
  split; [reflexivity|]. split; [exact Hnd|]. split; [exact Hp|].
  exact (proj1 (shallowCopy_is_new
                  [mkPlain [] false;
                   mkPlain [("a", PNum 2); ("b", PRef 0)] true] 1
                  (mkPlain [("a", PNum 2); ("b", PRef 0)] true)
                  eq_refl Hnd Hp)).
Defined.

(** X18.  [makeImmutable] freezes the object it is given and returns the
    same reference, the properties as they were; and on a frozen object
    [removeProperties] removes nothing, whatever the keys. *)
Theorem makeImmutable_blocks_removeProperties (σ : list plain) obj keys :
  fst (makeImmutable obj σ) = obj
  ∧ (∀ o, σ !! obj = Some o →
       snd (makeImmutable obj σ) !! obj = Some (mkPlain (own o) true))
  ∧ (∀ l, l ≠ obj → snd (makeImmutable obj σ) !! l = σ !! l)
  ∧ removeProperties obj keys (snd (makeImmutable obj σ))
      = (obj, snd (makeImmutable obj σ)).
Proof.
  unfold makeImmutable. cbn [fst snd].
  split; [done|]. split; [|split].
  - intros o Eo. by rewrite list_lookup_alter_eq, Eo.
  - intros l Hl. by rewrite list_lookup_alter_ne.
  - unfold removeProperties. rewrite removeProperties_alter. f_equal.
    rewrite list_alter_alter_eq. apply list_alter_ext; [|done].
    intros o _. simpl. by apply Object_delete_frozen.
Qed.

(** Once [answer] is [false] it stays [false]. *)
Lemma compareObjects_loop obj1 obj2 (keys : list string) : ∀ answer,
  foldl (λ answer key,
           if negb (bool_decide (Object_get obj1 key = Object_get obj2 key))
           then false else answer) answer keys = true
  ↔ answer = true
    ∧ ∀ key, key ∈ keys → Object_get obj1 key = Object_get obj2 key.
Proof.
  induction keys as [|key keys IH]; intros answer.
  - simpl. split; [|by intros [? _]]. intros ->. split; [done|].
    by intros ? ?%elem_of_nil.
  - cbn [foldl]. rewrite IH. case_bool_decide as Hk; simpl.
    + split.
      * intros [-> Hall]. split; [done|].
        intros k [->|Hin]%elem_of_cons; [done | by apply Hall].
      * intros [-> Hall]. split; [done|]. intros k Hin. apply Hall. by right.
    + split; [by intros [? _]|]. intros [_ Hall]. destruct Hk. apply Hall.
      by left.
Qed.

(** What [compareObjects] checks: as many keys, and under each key of the
    first object the same value in the second, a missing property reading
    as [undefined]. *)
Lemma compareObjects_checks obj1 obj2 :
  compareObjects obj1 obj2 = true
  ↔ length (own obj1) = length (own obj2)
    ∧ ∀ key, key ∈ Object_keys obj1 →
        Object_get obj1 key = Object_get obj2 key.
Proof.
  unfold compareObjects. rewrite compareObjects_loop.
  unfold Object_keys. rewrite !length_fmap.
  destruct (Nat.eqb_spec (length (own obj1)) (length (own obj2))) as [E|E];
    simpl.
  - split; intros [_ Hall]; by split.
  - split; by intros [? _].
Qed.

(** X19.  On two objects of which the first stores [undefined] under no
    key, [compareObjects] returns [true] exactly when the two have the same
    properties: the same keys with the same values, in whatever order. *)
Theorem compareObjects_same_properties obj1 obj2 :
  NoDup (Object_keys obj1) → NoDup (Object_keys obj2) →
  (∀ key, (key, PUndefined) ∉ own obj1) →
  compareObjects obj1 obj2 = true ↔ same_properties obj1 obj2.
Proof.
  intros Hnd1 Hnd2 Hdef. rewrite compareObjects_checks.
  unfold same_properties, Object_keys in *. split.
  - intros [Hlen Hall].
    assert (Hsub : ∀ key v, Map_get (own obj1) key = Some v →
                            Map_get (own obj2) key = Some v).
    { intros key v E.
      assert (Hin : key ∈ (own obj1).*1)
        by (apply Map_get_keys; by eexists).
      specialize (Hall key Hin). unfold Object_get in Hall.
      rewrite E in Hall. simpl in Hall.
      destruct (Map_get (own obj2) key) as [v2|]; simpl in Hall; [by subst|].
      subst v. apply Map_get_Some_elem_of in E. by destruct (Hdef key). }
    assert (Hincl : ∀ key, key ∈ (own obj2).*1 → key ∈ (own obj1).*1).
    { intros key Hin. apply list_elem_of_In.
      apply (NoDup_length_incl (l := (own obj1).*1) (l' := (own obj2).*1)).
      - by apply NoDup_ListNoDup.
      - rewrite !length_fmap. lia.
      - intros k Hk%list_elem_of_In. apply list_elem_of_In.
        apply Map_get_keys in Hk as [v Hv]. apply Map_get_keys.
        exists v. by apply Hsub.
      - by apply list_elem_of_In. }
    intros key. destruct (Map_get (own obj1) key) as [v|] eqn:E1.
    + symmetry. by apply Hsub.
    + destruct (Map_get (own obj2) key) as [v2|] eqn:E2; [|done].
      assert (Hin : key ∈ (own obj1).*1)
        by (apply Hincl, Map_get_keys; by eexists).
      apply Map_get_keys in Hin as [v Hv]. congruence.
  - intros Hsame. split.
    + rewrite <- (length_fmap fst (own obj1)), <- (length_fmap fst (own obj2)).
      apply Permutation_length, NoDup_Permutation; [done..|].
      intros key. by rewrite <- !Map_get_keys, Hsame.
    + intros key _. unfold Object_get. by rewrite Hsame.
Qed.

(** [compareObjects({a: 1, b: 2}, {b: 2, a: 1})] *)
Lemma compareObjects_same_properties_witness :
  NoDup (Object_keys (mkPlain [("a", PNum 1); ("b", PNum 2)] false))
  ∧ NoDup (Object_keys (mkPlain [("b", PNum 2); ("a", PNum 1)] false))
  ∧ (∀ key, (key, PUndefined)
            ∉ own (mkPlain [("a", PNum 1); ("b", PNum 2)] false))
  ∧ (compareObjects (mkPlain [("a", PNum 1); ("b", PNum 2)] false)
       (mkPlain [("b", PNum 2); ("a", PNum 1)] false) = true
     ↔ same_properties (mkPlain [("a", PNum 1); ("b", PNum 2)] false)
         (mkPlain [("b", PNum 2); ("a", PNum 1)] false)).
Proof.
  assert (Hnd1 : NoDup (Object_keys
                          (mkPlain [("a", PNum 1); ("b", PNum 2)] false)))
    by (refine (bool_decide_unpack _ _); vm_compute; exact I).
  assert (Hnd2 : NoDup (Object_keys
                          (mkPlain [("b", PNum 2); ("a", PNum 1)] false)))
    by (refine (bool_decide_unpack _ _); vm_compute; exact I).
  assert (Hdef : ∀ key, (key, PUndefined)
                        ∉ own (mkPlain [("a", PNum 1); ("b", PNum 2)] false)).
  { intros key Hin. simpl in Hin.
    apply elem_of_cons in Hin as [Hin|Hin]; [discriminate Hin|].
    apply elem_of_cons in Hin as [Hin|Hin]; [discriminate Hin|].
    by apply elem_of_nil in Hin. }
  split; [exact Hnd1|]. split; [exact Hnd2|]. split; [exact Hdef|].
  exact (compareObjects_same_properties _ _ Hnd1 Hnd2 Hdef).
Defined.

(** Where the first object stores [undefined], [compareObjects] can take
    two different objects for equal, and it is not symmetric. *)
Example compareObjects_undefined :
  compareObjects (mkPlain [("a", PUndefined)] false)
                 (mkPlain [("b", PNum 1)] false) = true
  ∧ compareObjects (mkPlain [("b", PNum 1)] false)
                   (mkPlain [("a", PUndefined)] false) = false.
Proof. by split. Qed.

Lemma filter_listed (keys : list string) (l : list (string * prim)) :
  (∀ p, p ∈ l → p.1 ∈ keys) → filter (λ p, p.1 ∉ keys) l = [].
Proof.
  induction l as [|p l IH]; intros Hall; [done|].
  rewrite filter_cons_False.
  - apply IH. intros q Hq. apply Hall. by right.
  - intros Hn. apply Hn, Hall. by left.
Qed.

(** X20.  [isEmptyObject] returns [true] exactly on an object without own
    enumerable properties; so it returns [true] on an object that is not
    frozen once [removeProperties] has been given all its keys. *)
Theorem isEmptyObject_after_removeProperties (σ : list plain) obj o :
  σ !! obj = Some o → frozen o = false →
  (isEmptyObject o = true ↔ own o = [])
  ∧ ∃ o',
      snd (removeProperties obj (Object_keys o) σ) !! obj = Some o'
      ∧ isEmptyObject o' = true.
Proof.
  intros Eo Hf. split.
  - unfold isEmptyObject, Object_keys. rewrite length_fmap.
    destruct (own o); simpl; split; done.
  - exists (mkPlain [] false).
    unfold removeProperties. cbn [snd].
    rewrite removeProperties_alter, list_lookup_alter_eq, Eo. simpl.
    rewrite Object_delete_all by done. split; [|done]. do 2 f_equal.
    apply filter_listed. intros p Hp. by apply list_elem_of_fmap_2.
Qed.

(** [isEmptyObject] on [{a: 1, b: 2}] once [removeProperties] was given
    ['a', 'b']. *)
Lemma isEmptyObject_after_removeProperties_witness :
  [mkPlain [("a", PNum 1); ("b", PNum 2)] false] !! 0
    = Some (mkPlain [("a", PNum 1); ("b", PNum 2)] false)
  ∧ frozen (mkPlain [("a", PNum 1); ("b", PNum 2)] false) = false
  ∧ ∃ o',
      snd (removeProperties 0
             (Object_keys (mkPlain [("a", PNum 1); ("b", PNum 2)] false))
             [mkPlain [("a", PNum 1); ("b", PNum 2)] false]) !! 0 = Some o'
      ∧ isEmptyObject o' = true.
Proof.
  split; [reflexivity|]. split; [reflexivity|].
  exact (proj2 (isEmptyObject_after_removeProperties
                  [mkPlain [("a", PNum 1); ("b", PNum 2)] false] 0
                  (mkPlain [("a", PNum 1); ("b", PNum 2)] false)
                  eq_refl eq_refl)).
Defined.

(** * Properties of [sortCitiesArray] *)

Lemma string_compare_refl (s : string) : String.compare s s = Eq.
Proof.
  induction s as [|a s IH]; simpl; [done|].
  unfold Ascii.compare. by rewrite N.compare_refl.
Qed.

Lemma string_ltb_gt (s1 s2 : string) :
  String.ltb s2 s1 = true ↔ String.compare s1 s2 = Gt.
Proof.
  unfold String.ltb. rewrite (String.compare_antisym s1 s2).
  destruct (String.compare s2 s1); simpl; split; done.
Qed.

Lemma string_leb_ltb (s1 s2 : string) :
  String.leb s1 s2 = true ↔ String.ltb s1 s2 = true ∨ s1 = s2.
Proof.
  unfold String.leb, String.ltb.
  destruct (String.compare s1 s2) eqn:E; split; try done.
  - intros _. right. by apply String.compare_eq_iff.
  - by left.
  - intros [?| ->]; [done|]. by rewrite string_compare_refl in E.
Qed.

Lemma string_ltb_irrefl (s : string) : String.ltb s s = false.
Proof. unfold String.ltb. by rewrite string_compare_refl. Qed.

Lemma string_ltb_trans (s1 s2 s3 : string) :
  String.ltb s1 s2 = true → String.ltb s2 s3 = true →
  String.ltb s1 s3 = true.
Proof.
  intros H12 H23.
  assert (L12 : String.le s1 s2)
    by (apply Is_true_true, string_leb_ltb; by left).
  assert (L23 : String.le s2 s3)
    by (apply Is_true_true, string_leb_ltb; by left).
  assert (L13 : String.le s1 s3) by (by etrans).
  apply Is_true_true, string_leb_ltb in L13 as [?| ->]; [done|].
  assert (s2 = s3) as -> by (by apply (anti_symm String.le)).
  by rewrite string_ltb_irrefl in H23.
Qed.

Lemma string_ltb_asym (s1 s2 : string) :
  String.ltb s1 s2 = true → String.ltb s2 s1 = false.
Proof.
  intros H12. destruct (String.ltb s2 s1) eqn:H21; [|done].
  pose proof (string_ltb_trans _ _ _ H12 H21) as H.
  by rewrite string_ltb_irrefl in H.
Qed.

Lemma string_trichotomy (s1 s2 : string) :
  String.ltb s1 s2 = true ∨ s1 = s2 ∨ String.ltb s2 s1 = true.
Proof.
  destruct (String.compare s1 s2) eqn:E.
  - right. left. by apply String.compare_eq_iff.
  - left. unfold String.ltb. by rewrite E.
  - right. right. by apply string_ltb_gt.
Qed.

(** X21.  The comparison function orders any two cities: it returns 1, -1
    or 0 and never reaches its last line, which returns the array; it
    returns 0 only on cities of the same country and name; and swapping
    the arguments swaps 1 and -1. *)
Theorem compareCities_total (a b : GeoEntity) :
  ∃ z, compareCities a b = Number z
    ∧ (z = 1 ∨ z = 0 ∨ z = -1)%Z
    ∧ (z = 0%Z ↔ a = b)
    ∧ compareCities b a = Number (- z).
Proof.
  destruct a as [ca ta], b as [cb tb]. unfold compareCities. cbn [country city].
  destruct (string_trichotomy ca cb) as [Hc|[-> |Hc]].
  - rewrite (string_ltb_asym _ _ Hc), Hc.
    exists (-1)%Z. repeat split; try done; [by right; right|].
    intros [= -> _]. by rewrite string_ltb_irrefl in Hc.
  - rewrite !string_ltb_irrefl, String.eqb_refl.
    destruct (string_trichotomy ta tb) as [Ht|[-> |Ht]].
    + rewrite (string_ltb_asym _ _ Ht), Ht.
      exists (-1)%Z. repeat split; try done; [by right; right|].
      intros [= ->]. by rewrite string_ltb_irrefl in Ht.
    + rewrite !string_ltb_irrefl. exists 0%Z. repeat split; try done.
      by right; left.
    + rewrite Ht, (string_ltb_asym _ _ Ht).
      exists 1%Z. repeat split; try done; [by left|].
      intros [= ->]. by rewrite string_ltb_irrefl in Ht.
  - rewrite Hc, (string_ltb_asym _ _ Hc).
    exists 1%Z. repeat split; try done; [by left|].
    intros [= -> _]. by rewrite string_ltb_irrefl in Hc.
Qed.

(** The comparison is not positive exactly when the first city comes
    first by country, then by city. *)
Lemma not_after_order a b : not_after a b ↔ by_country_then_city a b.
Proof.
  destruct a as [ca ta], b as [cb tb].
  unfold not_after, by_country_then_city, compareCities. cbn [country city].
  destruct (string_trichotomy ca cb) as [Hc|[-> |Hc]].
  - rewrite (string_ltb_asym _ _ Hc), Hc. simpl. split; [by left | lia].
  - rewrite !string_ltb_irrefl, String.eqb_refl.
    destruct (string_trichotomy ta tb) as [Ht|[-> |Ht]].
    + rewrite (string_ltb_asym _ _ Ht), Ht. simpl. split; [|lia].
      intros _. right. split; [done|]. apply string_leb_ltb. by left.
    + rewrite !string_ltb_irrefl. simpl. split; [|lia].
      intros _. right. split; [done|]. apply string_leb_ltb. by right.
    + rewrite Ht. simpl. split; [lia|].
      intros [?|[_ [Hlt| ->]%string_leb_ltb]]; [done|..].
      * by rewrite (string_ltb_asym _ _ Ht) in Hlt.
      * by rewrite string_ltb_irrefl in Ht.
  - rewrite Hc. simpl. split; [lia|].
    intros [Hlt|[-> _]].
    + by rewrite (string_ltb_asym _ _ Hc) in Hlt.
    + by rewrite string_ltb_irrefl in Hc.
Qed.

#[local] Instance by_country_then_city_trans : Transitive by_country_then_city.
Proof.
  intros a b c [Hab|[Eab Hab]] [Hbc|[Ebc Hbc]].
  - left. by eapply string_ltb_trans.
  - left. by rewrite <- Ebc.
  - left. by rewrite Eab.
  - right. split; [congruence|].
    apply Is_true_true. trans (city b); by apply Is_true_true.
Qed.

#[local] Instance by_country_then_city_antisym :
  AntiSymm (=) by_country_then_city.
Proof.
  intros [ca ta] [cb tb] [Hab|[Eab Hab]] [Hba|[Eba Hba]]; simpl in *.
  - by rewrite (string_ltb_asym _ _ Hab) in Hba.
  - subst. by rewrite string_ltb_irrefl in Hab.
  - subst. by rewrite string_ltb_irrefl in Hba.
  - subst. f_equal. by apply String.leb_antisym.
Qed.

#[local] Instance not_after_trans : Transitive not_after.
Proof. intros a b c. rewrite !not_after_order. apply transitivity. Qed.

#[local] Instance not_after_total : Total not_after.
Proof.
  intros a b. rewrite !not_after_order.
  destruct a as [ca ta], b as [cb tb]. unfold by_country_then_city. simpl.
  destruct (string_trichotomy ca cb) as [Hc|[-> |Hc]]; [by left; left| |by right; left].
  destruct (String.leb_total ta tb); [left|right]; by right.
Qed.

Lemma StronglySorted_weaken {A : Type} (R R' : relation A) (l : list A) :
  (∀ a b, R a b → R' a b) → StronglySorted R l → StronglySorted R' l.
Proof.
  intros HR. induction 1 as [|a l Hs IH Hall]; constructor; [done|].
  eapply Forall_impl; eauto.
Qed.

(** X22.  On cities whose country and city names are written with
    characters below U+0080, [sortCitiesArray] returns the cities of the
    array, each as often as it occurs there, in ascending order of country
    and, within a country, of city; and no other arrangement of these
    cities is in that order, so the result does not depend on how [sort]
    works. *)
Theorem sortCitiesArray_sorted (arr : list GeoEntity) :
  Forall ascii_names arr →
  sortCitiesArray arr ≡ₚ arr
  ∧ Forall ascii_names (sortCitiesArray arr)
  ∧ StronglySorted by_country_then_city (sortCitiesArray arr)
  ∧ ∀ l, l ≡ₚ arr → Sorted by_country_then_city l → l = sortCitiesArray arr.
Proof.
  intros Hplain.
  assert (Hs : StronglySorted by_country_then_city (sortCitiesArray arr)).
  { apply (StronglySorted_weaken not_after); [intros a b; apply not_after_order|].
    apply (StronglySorted_merge_sort not_after). }
  assert (Hp : sortCitiesArray arr ≡ₚ arr) by apply merge_sort_Permutation.
  split; [done|]. split; [by rewrite Hp|]. split; [done|].
  intros l Hl Hsorted. apply (Sorted_unique by_country_then_city); [done| |].
  - by apply StronglySorted_Sorted.
  - by rewrite Hl.
Qed.

(** The array of the source's documentation. *)
Lemma sortCitiesArray_sorted_witness :
  Forall ascii_names
    [mkGeoEntity "Russia" "Moscow"; mkGeoEntity "Belarus" "Minsk";
     mkGeoEntity "Poland" "Warsaw"; mkGeoEntity "Russia" "Saint Petersburg";
     mkGeoEntity "Poland" "Krakow"; mkGeoEntity "Belarus" "Brest"]
  ∧ sortCitiesArray
      [mkGeoEntity "Russia" "Moscow"; mkGeoEntity "Belarus" "Minsk";
       mkGeoEntity "Poland" "Warsaw"; mkGeoEntity "Russia" "Saint Petersburg";
       mkGeoEntity "Poland" "Krakow"; mkGeoEntity "Belarus" "Brest"]
    ≡ₚ [mkGeoEntity "Russia" "Moscow"; mkGeoEntity "Belarus" "Minsk";
        mkGeoEntity "Poland" "Warsaw"; mkGeoEntity "Russia" "Saint Petersburg";
        mkGeoEntity "Poland" "Krakow"; mkGeoEntity "Belarus" "Brest"].
Proof.
  assert (Hplain : Forall ascii_names
    [mkGeoEntity "Russia" "Moscow"; mkGeoEntity "Belarus" "Minsk";
     mkGeoEntity "Poland" "Warsaw"; mkGeoEntity "Russia" "Saint Petersburg";
     mkGeoEntity "Poland" "Krakow"; mkGeoEntity "Belarus" "Brest"])
    by (repeat constructor).
  split; [exact Hplain|].
  exact (proj1 (sortCitiesArray_sorted _ Hplain)).
Defined.

(** The example of the source's documentation. *)
Example sortCitiesArray_documented :
  sortCitiesArray
    [mkGeoEntity "Russia" "Moscow"; mkGeoEntity "Belarus" "Minsk";
     mkGeoEntity "Poland" "Warsaw"; mkGeoEntity "Russia" "Saint Petersburg";
     mkGeoEntity "Poland" "Krakow"; mkGeoEntity "Belarus" "Brest"]
  = [mkGeoEntity "Belarus" "Brest"; mkGeoEntity "Belarus" "Minsk";
     mkGeoEntity "Poland" "Krakow"; mkGeoEntity "Poland" "Warsaw";
     mkGeoEntity "Russia" "Moscow"; mkGeoEntity "Russia" "Saint Petersburg"].
Proof. by vm_compute. Qed.

(** * Properties of [makeWord] *)

Example makeWord_documented :
  makeWord [("a", [0; 1]); ("b", [2; 3]); ("c", [4; 5])] = "aabbcc"
  ∧ makeWord [("H", [0]); ("e", [1]); ("l", [2; 3; 8]); ("o", [4; 6]);
              ("W", [5]); ("r", [7]); ("d", [9])] = "HelloWorld".
Proof. split; by vm_compute. Qed.

(** The loops of [makeWord] as one sequence of writes. *)
Lemma makeWord_writes (rest : list (string * list nat)) :
  ∀ (lettersObject : list (string * list nat)) (arr : list cell),
    (∀ p, p ∈ rest → Map_get lettersObject p.1 = Some p.2) →
    foldl (λ lettersArr letter,
             foldl (λ lettersArr el, Array_put lettersArr el (Letter letter))
                   lettersArr
                   (default [] (Map_get lettersObject letter)))
          arr rest.*1
    = foldl (λ lettersArr w, Array_put lettersArr w.1 (Letter w.2)) arr
            (letter_writes rest).
Proof.
  induction rest as [|[letter ps] rest IH]; intros lettersObject arr Hget;
    [done|].
  rewrite fmap_cons. cbn [foldl fst].
  assert (Hg : Map_get lettersObject letter = Some ps)
    by (apply (Hget (letter, ps)); by left).
  rewrite Hg. cbn [default from_option snd].
  unfold letter_writes. rewrite bind_cons, foldl_app. cbn [fst snd].
  rewrite IH by (intros p Hp; apply Hget; by right).
  f_equal. clear. revert arr.
  induction ps as [|el ps IH]; intros arr; [done|]. simpl. apply IH.
Qed.

Lemma writes_length (ws : list (nat * string)) : ∀ arr : list cell,
  (∀ w, w ∈ ws → w.1 < length arr) →
  length (foldl (λ lettersArr w, Array_put lettersArr w.1 (Letter w.2))
                arr ws) = length arr.
Proof.
  induction ws as [|[el letter] ws IH]; intros arr Hin; [done|].
  cbn [foldl fst snd]. unfold Array_put at 2.
  rewrite decide_True by (apply (Hin (el, letter)); by left).
  rewrite IH; [by rewrite length_insert|].
  intros w Hw. rewrite length_insert. apply Hin. by right.
Qed.

Lemma writes_elsewhere (ws : list (nat * string)) : ∀ (arr : list cell) i,
  (∀ w, w ∈ ws → w.1 < length arr) → i ∉ ws.*1 →
  foldl (λ lettersArr w, Array_put lettersArr w.1 (Letter w.2)) arr ws !! i
    = arr !! i.
Proof.
  induction ws as [|[el letter] ws IH]; intros arr i Hin Hi; [done|].
  rewrite fmap_cons, not_elem_of_cons in Hi. destruct Hi as [Hne Hi].
  cbn [foldl fst snd]. unfold Array_put at 2.
  rewrite decide_True by (apply (Hin (el, letter)); by left).
  rewrite IH; [by rewrite list_lookup_insert_ne|..|done].
  intros w Hw. rewrite length_insert. apply Hin. by right.
Qed.

Lemma writes_there (ws : list (nat * string)) : ∀ (arr : list cell) el letter,
  (∀ w, w ∈ ws → w.1 < length arr) → NoDup ws.*1 → (el, letter) ∈ ws →
  foldl (λ lettersArr w, Array_put lettersArr w.1 (Letter w.2)) arr ws !! el
    = Some (Letter letter).
Proof.
  induction ws as [|[el0 letter0] ws IH]; intros arr el letter Hin Hnd Hel;
    [by apply elem_of_nil in Hel|].
  rewrite fmap_cons, NoDup_cons in Hnd. destruct Hnd as [Hfresh Hnd].
  assert (Hlt : el0 < length arr) by (apply (Hin (el0, letter0)); by left).
  assert (Hin' : ∀ w, w ∈ ws →
                   w.1 < length (<[el0 := Letter letter0]> arr)).
  { intros w Hw. rewrite length_insert. apply Hin. by right. }
  cbn [foldl fst snd]. unfold Array_put at 2. rewrite decide_True by done.
  apply elem_of_cons in Hel as [[= -> ->]|Hel].
  - rewrite writes_elsewhere by done. by apply list_lookup_insert_eq.
  - by apply IH.
Qed.

Lemma letter_writes_positions (lettersObject : list (string * list nat)) :
  (letter_writes lettersObject).*1 = concat lettersObject.*2.
Proof.
  induction lettersObject as [|[letter ps] rest IH]; [done|].
  unfold letter_writes in *. rewrite bind_cons, fmap_app, IH. cbn [fst snd].
  rewrite fmap_cons. cbn [snd concat]. f_equal.
  rewrite <- list_fmap_compose. by rewrite list_fmap_id.
Qed.

Lemma letter_writes_elem_of (lettersObject : list (string * list nat)) el letter :
  (el, letter) ∈ letter_writes lettersObject
  ↔ ∃ ps, (letter, ps) ∈ lettersObject ∧ el ∈ ps.
Proof.
  unfold letter_writes. rewrite list_elem_of_bind. split.
  - intros ([letter' ps] & Hin & Hp). cbn [fst snd] in Hin.
    apply list_elem_of_fmap in Hin as (el' & [= -> ->] & Hel). by exists ps.
  - intros (ps & Hp & Hel). exists (letter, ps). split; [|done].
    apply list_elem_of_fmap. by exists el.
Qed.

(** X23.  When [lettersObject] gives, for each letter of a word, the
    positions at which it stands, so that every position of the word is
    listed once and under its letter, [makeWord] returns the word. *)
Theorem makeWord_spells (lettersObject : list (string * list nat))
    (word : list string) :
  NoDup lettersObject.*1 →
  NoDup (concat lettersObject.*2) →
  length (concat lettersObject.*2) = length word →
  (∀ letter ps el, (letter, ps) ∈ lettersObject → el ∈ ps →
     word !! el = Some letter) →
  makeWord lettersObject = joined word.
Proof.
  intros Hkeys Hnd Hlen Hword. unfold makeWord.
  rewrite (makeWord_writes lettersObject lettersObject)
    by (intros [letter ps] Hp; by apply Map_get_elem_of).
  set (arr := Position <$> concat lettersObject.*2).
  set (ws := letter_writes lettersObject).
  assert (Harr : length arr = length word)
    by (unfold arr; by rewrite length_fmap).
  assert (Hin : ∀ w, w ∈ ws → w.1 < length arr).
  { intros [el letter] (ps & Hp & Hel)%letter_writes_elem_of. cbn [fst].
    rewrite Harr. eapply lookup_lt_Some. by eapply Hword. }
  assert (Hnd' : NoDup ws.*1)
    by (unfold ws; by rewrite letter_writes_positions).
  assert (Hcover : ∀ i, i < length word → i ∈ ws.*1).
  { intros i Hi. unfold ws. rewrite letter_writes_positions.
    apply list_elem_of_In.
    apply (NoDup_length_incl (l := concat lettersObject.*2)
             (l' := seq 0 (length word))).
    - by apply NoDup_ListNoDup.
    - rewrite length_seq. lia.
    - intros el Hel%list_elem_of_In. apply in_seq.
      assert (Hel' : el ∈ ws.*1)
        by (unfold ws; by rewrite letter_writes_positions).
      apply list_elem_of_fmap in Hel' as ([el' letter] & -> & Hw).
      specialize (Hin _ Hw). cbn [fst] in *. lia.
    - apply in_seq. lia. }
  assert (Hfinal : foldl (λ lettersArr w,
                            Array_put lettersArr w.1 (Letter w.2)) arr ws
                   = Letter <$> word).
  { apply list_eq. intros i. rewrite list_lookup_fmap.
    destruct (decide (i < length word)) as [Hi|Hi].
    - apply Hcover, list_elem_of_fmap in Hi as ([el letter] & -> & Hw).
      cbn [fst]. rewrite (writes_there ws arr el letter) by done.
      apply letter_writes_elem_of in Hw as (ps & Hp & Hel).
      by rewrite (Hword _ _ _ Hp Hel).
    - rewrite !lookup_ge_None_2; [done|lia|].
      rewrite writes_length by done. lia. }
  rewrite Hfinal, <- list_fmap_compose. f_equal. by apply list_fmap_id.
Qed.

(** [makeWord({ a: [0, 1], b: [2, 3], c: [4, 5] })] *)
Lemma makeWord_spells_witness :
  NoDup [("a", [0; 1]); ("b", [2; 3]); ("c", [4; 5])].*1
  ∧ NoDup (concat [("a", [0; 1]); ("b", [2; 3]); ("c", [4; 5])].*2)
  ∧ length (concat [("a", [0; 1]); ("b", [2; 3]); ("c", [4; 5])].*2)
      = length ["a"; "a"; "b"; "b"; "c"; "c"]
  ∧ makeWord [("a", [0; 1]); ("b", [2; 3]); ("c", [4; 5])]
      = joined ["a"; "a"; "b"; "b"; "c"; "c"].
Proof.
  assert (H1 : NoDup [("a", [0; 1]); ("b", [2; 3]); ("c", [4; 5])].*1)
    by (refine (bool_decide_unpack _ _); vm_compute; exact I).
  assert (H2 : NoDup (concat [("a", [0; 1]); ("b", [2; 3]); ("c", [4; 5])].*2))
    by (refine (bool_decide_unpack _ _); vm_compute; exact I).
  split; [exact H1|]. split; [exact H2|]. split; [reflexivity|].
  apply (makeWord_spells [("a", [0; 1]); ("b", [2; 3]); ("c", [4; 5])]
           ["a"; "a"; "b"; "b"; "c"; "c"] H1 H2 eq_refl).
  intros letter ps el Hp Hel.
  repeat (apply elem_of_cons in Hp as [[= -> ->]|Hp];
          [repeat (apply elem_of_cons in Hel as [->|Hel]; [reflexivity|]);
           by apply elem_of_nil in Hel|]).
  by apply elem_of_nil in Hp.
Defined.
